(** * yobecs: a shallow embedding of the ECS model and its properties

The development follows the headers of [src/yobecs]:
- [accessMatrix.hpp]  -> [Module AccessMatrix]
- [component.hpp]     -> [Module Component]
- [system.hpp]        -> [Module System]
- [model.hpp]         -> [Module Model]

Conventions.
- [std::size_t] values are numbers of type [N]; the sentinel
  [maxAccessor_] is [2^64 - 1].
- [std::vector], [std::array] and [std::deque] are lists; an indexed read
  or write outside the bounds, [back()] on an empty container and the
  dereference of an iterator that points into no block are undefined
  behaviour in the source and yield [None] here.  Every operation that
  touches memory therefore lives in the [option] monad, and a theorem
  that says what a call returns also says that the call is defined.
- [std::set] is [gset], [std::map] is [gmap].
- A component type [T] of the pack [Ts...] is represented by its index
  [typeId_<T>], a natural number below [M = sizeof...(Ts)]; the tuple
  [components_] is a list of [M] stores, and the values of all component
  types live in one type [V].
- An [Index] (an iterator into a block) is the pair of the block's number
  in [data_] and the position in the block; a [SystemHandle] (the address
  of a [System]) is a number, chosen by the caller of [createSystem] the
  way the allocator chooses the address.
- The callback of a system is a value of an opaque type [F];
  [Model::process], which only runs the callbacks, is not modelled. *)

From stdpp Require Import base option numbers list gmap sets.

Open Scope N_scope.
Open Scope nat_scope.

(** ** Small vocabulary for [std::vector] *)

Module Vec.
Section vec.
Context {A : Type}.

(** [v.back()] *)
Definition back (v : list A) : option A := last v.

(** [v[i] = x] *)
Definition assign (v : list A) (i : nat) (x : A) : option (list A) :=
  if decide (i < length v) then Some (<[i := x]> v) else None.

(** [v.resize(v.size() - 1)] on a non-empty vector *)
Definition shrink (v : list A) : list A := take (length v - 1) v.

(** [v.push_back(x)] *)
Definition push_back (v : list A) (x : A) : list A := v ++ [x].
End vec.
End Vec.

(** ** accessMatrix.hpp *)

Module AccessMatrix.

(** [Index] is an iterator into a block: the number of the block inside
    [data_] and the position inside the block. *)
Abbreviation Index := (nat * nat)%type.

Abbreviation Accessors_ := (list N).
Abbreviation Block_ := (list (list N)).

Definition maxAccessor_ : N := (2 ^ 64 - 1)%N.

Record t : Type := mk {
  data_ : list Block_;
  available_ : list Index   (* front of the deque first *)
}.

Section matrix.
(** Template parameters: [Nb] slots per block (the source's [N], renamed
    because [N] is the type of binary naturals here) and [M] accessors
    per slot. *)
Context (Nb M : nat).

Definition defaultAccessors_ : Accessors_ := replicate M maxAccessor_.

Definition empty : t := {| data_ := []; available_ := [] |}.

(** [*i] *)
Definition deref (am : t) (i : Index) : option Accessors_ :=
  blk ← data_ am !! i.1; blk !! i.2.

(** [*i = acc] *)
Definition store (am : t) (i : Index) (acc : Accessors_) : option t :=
  _ ← deref am i;
  Some {| data_ := alter (<[i.2 := acc]>) i.1 (data_ am);
          available_ := available_ am |}.

(** [get(i, p)] read as a value *)
Definition get (am : t) (i : Index) (p : nat) : option N :=
  acc ← deref am i; acc !! p.

(** [get(i, p) = v] *)
Definition set (am : t) (i : Index) (p : nat) (v : N) : option t :=
  acc ← deref am i;
  acc' ← Vec.assign acc p v;
  store am i acc'.

Definition has (am : t) (i : Index) (p : nat) : option bool :=
  a ← get am i p; Some (negb (a =? maxAccessor_)%N).

Definition reset (am : t) (i : Index) (p : nat) : option t :=
  set am i p maxAccessor_.

(** [expand_]: a new block, every slot filled with the default accessors,
    its iterators pushed at the front of [available_] one after the
    other. *)
Definition expand_ (am : t) : t :=
  let b := length (data_ am) in
  {| data_ := data_ am ++ [replicate Nb defaultAccessors_];
     available_ := foldl (λ av k, (b, k) :: av) (available_ am) (seq 0 Nb) |}.

Definition make (am : t) : option (t * Index) :=
  let am1 := if decide (available_ am = []) then expand_ am else am in
  i ← Vec.back (available_ am1);
  Some ({| data_ := data_ am1; available_ := Vec.shrink (available_ am1) |}, i).

Definition free (am : t) (i : Index) : option t :=
  am1 ← store am i defaultAccessors_;
  Some {| data_ := data_ am1; available_ := Vec.push_back (available_ am1) i |}.
End matrix.
End AccessMatrix.

(** ** component.hpp *)

Module Component.
Section component.
Context {T E : Type}.

Record t : Type := mk {
  data_ : list T;
  owners_ : list E
}.

Definition empty : t := {| data_ := []; owners_ := [] |}.

(** [data_.size()] converted to [std::size_t]; a vector never holds
    [2^64] elements, so the conversion does not wrap. *)
Definition insert (c : t) (e : E) (val : T) : t * N :=
  let a := N.of_nat (length (data_ c)) in
  ({| data_ := Vec.push_back (data_ c) val;
      owners_ := Vec.push_back (owners_ c) e |}, a).

Definition remove (c : t) (a : N) : option (t * E) :=
  let i := N.to_nat a in
  ob ← Vec.back (owners_ c);
  owners1 ← Vec.assign (owners_ c) i ob;
  e ← owners1 !! i;
  let owners2 := Vec.shrink owners1 in
  db ← Vec.back (data_ c);
  data1 ← Vec.assign (data_ c) i db;
  let data2 := Vec.shrink data1 in
  Some ({| data_ := data2; owners_ := owners2 |}, e).

Definition access (c : t) (a : N) : option T := data_ c !! N.to_nat a.
End component.
Arguments t : clear implicits.
End Component.

(** ** system.hpp *)

Module System.
Section system.
(** [S] is the signature type, [E] the entity type; [F] stands for
    [ProcessF], the type of the stored callback. *)
Context {S E F : Type} `{Countable E}.

Record t : Type := mk {
  signature_ : S;
  entities_ : gset E;
  f_ : F
}.

(** The constructor: an empty entity set. *)
Definition make (signature : S) (f : F) : t :=
  {| signature_ := signature; entities_ := ∅; f_ := f |}.

Definition signature (sys : t) : S := signature_ sys.

Definition insert (sys : t) (e : E) : t :=
  {| signature_ := signature_ sys;
     entities_ := {[e]} ∪ entities_ sys;
     f_ := f_ sys |}.

Definition remove (sys : t) (e : E) : t :=
  {| signature_ := signature_ sys;
     entities_ := entities_ sys ∖ {[e]};
     f_ := f_ sys |}.
End system.
Arguments t _ _ _ {_ _}.
End System.

(** ** model.hpp *)

(** Fold expressions and loops whose body may be undefined. *)
Fixpoint foldM {A B : Type} (f : B → A → option B) (b : B) (l : list A)
    : option B :=
  match l with
  | [] => Some b
  | x :: l => b' ← f b x; foldM f b' l
  end.

Module Model.

(** [Entity] wraps an [AccessMatrix::Index]; [WrappedHandle] adds nothing
    but the comparison of the wrapped value. *)
Abbreviation Entity := AccessMatrix.Index.

(** [std::bitset<sizeof...(Ts)>]: bit [p] is [N.testbit s p]. *)
Abbreviation Signature_ := N.

(** [SystemHandle] wraps the address of the owned [System_] object. *)
Abbreviation SystemHandle := nat.

Section model.
(** [Nb] is the block size (the source's [N]), [M] is [sizeof...(Ts)].
    The values of all component types live in one type [V]; [F] is
    [System_::ProcessF]. *)
Context (Nb M : nat) {V F : Type}.

Definition System_ : Type := System.t Signature_ Entity F.

Record t : Type := mk {
  accessMatrix_ : AccessMatrix.t;
  spawnedEntities_ : gset Entity;
  components_ : list (Component.t V Entity);
  systems_ : gmap SystemHandle System_
}.

(** A freshly constructed model. *)
Definition empty : t :=
  {| accessMatrix_ := AccessMatrix.empty;
     spawnedEntities_ := ∅;
     components_ := replicate M Component.empty;
     systems_ := ∅ |}.

Definition set_accessMatrix (m : t) (am : AccessMatrix.t) : t :=
  {| accessMatrix_ := am; spawnedEntities_ := spawnedEntities_ m;
     components_ := components_ m; systems_ := systems_ m |}.

Definition set_spawnedEntities (m : t) (s : gset Entity) : t :=
  {| accessMatrix_ := accessMatrix_ m; spawnedEntities_ := s;
     components_ := components_ m; systems_ := systems_ m |}.

Definition set_components (m : t) (cs : list (Component.t V Entity)) : t :=
  {| accessMatrix_ := accessMatrix_ m; spawnedEntities_ := spawnedEntities_ m;
     components_ := cs; systems_ := systems_ m |}.

Definition set_systems (m : t) (ss : gmap SystemHandle System_) : t :=
  {| accessMatrix_ := accessMatrix_ m; spawnedEntities_ := spawnedEntities_ m;
     components_ := components_ m; systems_ := ss |}.

(** *** Access matrix shortcuts; [T] is the index [typeId_<T>] *)

Definition getAccess_ (m : t) (T : nat) (e : Entity) : option N :=
  AccessMatrix.get (accessMatrix_ m) e T.

Definition hasAccess_ (m : t) (T : nat) (e : Entity) : option bool :=
  AccessMatrix.has (accessMatrix_ m) e T.

Definition resetAccess_ (m : t) (T : nat) (e : Entity) : option t :=
  am ← AccessMatrix.reset (accessMatrix_ m) e T;
  Some (set_accessMatrix m am).

(** [getAccess_<T>(e) = a] *)
Definition setAccess_ (m : t) (T : nat) (e : Entity) (a : N) : option t :=
  am ← AccessMatrix.set (accessMatrix_ m) e T a;
  Some (set_accessMatrix m am).

Definition getComponent_ (m : t) (T : nat) : option (Component.t V Entity) :=
  components_ m !! T.

(** *** Signatures *)

(** [computeSignature_<Us...>()], [Us] given by their indices. *)
Definition computeSignature_ (Us : list nat) : Signature_ :=
  foldl (λ s U, N.lor s (N.setbit 0 (N.of_nat U))) 0%N Us.

(** [computeSignature_(e)]: the fold runs over the whole pack [Ts...]. *)
Definition computeSignature_of (m : t) (e : Entity) : option Signature_ :=
  foldM (λ s T,
           h ← hasAccess_ m T e;
           Some (N.lor s (if h : bool then N.setbit 0 (N.of_nat T) else 0%N)))
        0%N (seq 0 M).

(** *** Systems *)

Definition insertInSystems_ (m : t) (e : Entity) (s : Signature_) : t :=
  set_systems m
    ((λ sys : System_,
        let sSys := System.signature sys in
        if decide (N.land s sSys = sSys) then System.insert sys e else sys)
     <$> systems_ m).

Definition removeFromSystems_ (m : t) (e : Entity) (s : Signature_) : t :=
  set_systems m
    ((λ sys : System_,
        let sSys := System.signature sys in
        if decide (N.land s sSys = sSys) then System.remove sys e else sys)
     <$> systems_ m).

(** [createSystem<Us...>(f)].  [hSys] is the address that
    [std::make_unique] hands out for the new system.  The loop edits the
    system through the reference [sys] into [systems_]; the order in which
    [spawnedEntities_] is walked does not show in the result. *)
Definition createSystem (m : t) (hSys : SystemHandle) (Us : list nat) (f : F)
    : option (t * SystemHandle) :=
  let tmpSys : System_ := System.make (computeSignature_ Us) f in
  let sSys := System.signature tmpSys in
  sys ← foldM (λ (sys : System_) e,
                 s ← computeSignature_of m e;
                 Some (if decide (N.land s sSys = sSys)
                       then System.insert sys e else sys))
              tmpSys (elements (spawnedEntities_ m));
  Some (set_systems m (<[hSys := sys]> (systems_ m)), hSys).

Definition removeSystem (m : t) (hSys : SystemHandle) : t :=
  set_systems m (delete hSys (systems_ m)).

(** *** Entities and components *)

Definition createEntity (m : t) : option (t * Entity) :=
  '(am, e) ← AccessMatrix.make Nb M (accessMatrix_ m);
  let m1 := set_accessMatrix m am in
  let m2 := set_spawnedEntities m1 ({[e]} ∪ spawnedEntities_ m1) in
  Some (insertInSystems_ m2 e 0%N, e).

Definition insert (m : t) (T : nat) (e : Entity) (val : V) : option t :=
  c ← getComponent_ m T;
  let '(c', a) := Component.insert c e val in
  let m1 := set_components m (<[T := c']> (components_ m)) in
  m2 ← setAccess_ m1 T e a;
  s ← computeSignature_of m2 e;
  Some (insertInSystems_ m2 e s).

Definition remove (m : t) (T : nat) (e : Entity) : option t :=
  a ← getAccess_ m T e;
  c ← getComponent_ m T;
  '(c', repE) ← Component.remove c a;
  let m1 := set_components m (<[T := c']> (components_ m)) in
  m2 ← resetAccess_ m1 T e;
  m3 ← (if decide (repE ≠ e) then setAccess_ m2 T repE a else Some m2);
  Some (removeFromSystems_ m3 e (computeSignature_ [T])).

Definition access (m : t) (T : nat) (e : Entity) : option V :=
  a ← getAccess_ m T e;
  c ← getComponent_ m T;
  Component.access c a.

Definition checkedRemove_ (m : t) (T : nat) (e : Entity) : option t :=
  h ← hasAccess_ m T e;
  if h : bool then remove m T e else Some m.

Definition removeEntity (m : t) (e : Entity) : option t :=
  m1 ← foldM (λ m' T, checkedRemove_ m' T e) m (seq 0 M);
  am ← AccessMatrix.free M (accessMatrix_ m1) e;
  let m2 := set_accessMatrix m1 am in
  let m3 := set_spawnedEntities m2 (spawnedEntities_ m2 ∖ {[e]}) in
  Some (removeFromSystems_ m3 e 0%N).
End model.
End Model.

Arguments Model.t : clear implicits.
Arguments Model.System_ : clear implicits.

(** ** Well-formed states, legal calls and reachable states *)

Section wellformed.
Context (Nb M : nat) {V F : Type}.
Implicit Types (m : Model.t V F) (e : Model.Entity) (T : nat).

(** [e] currently owns a component of type [T]. *)
Definition owns m T e : Prop := Model.hasAccess_ m T e = Some true.

(** The slot behind [i] exists and has one accessor per component type. *)
Definition slot_ok (am : AccessMatrix.t) (i : AccessMatrix.Index) : Prop :=
  ∃ acc, AccessMatrix.deref am i = Some acc ∧ length acc = M.

(** The store of type [T] and the accessors of column [T] agree: the two
    vectors have one length, every valid offset is below the sentinel,
    the owner recorded at an offset is a spawned entity whose accessor
    is that offset, and the accessor of a spawned entity, when present,
    is an offset at which the entity is recorded. *)
Record store_ok m T (c : Component.t V Model.Entity) : Prop := {
  store_lengths : length (Component.data_ c) = length (Component.owners_ c);
  store_below_sentinel :
    (N.of_nat (length (Component.owners_ c)) ≤ AccessMatrix.maxAccessor_)%N;
  store_owner : ∀ a e,
    Component.owners_ c !! a = Some e →
    e ∈ Model.spawnedEntities_ m ∧ Model.getAccess_ m T e = Some (N.of_nat a);
  store_accessor : ∀ e a,
    e ∈ Model.spawnedEntities_ m →
    Model.getAccess_ m T e = Some a →
    a ≠ AccessMatrix.maxAccessor_ →
    Component.owners_ c !! N.to_nat a = Some e
}.

Record wf m : Prop := {
  wf_spawned : ∀ e,
    e ∈ Model.spawnedEntities_ m → slot_ok (Model.accessMatrix_ m) e;
  wf_available_nodup : NoDup (AccessMatrix.available_ (Model.accessMatrix_ m));
  wf_available : ∀ i,
    i ∈ AccessMatrix.available_ (Model.accessMatrix_ m) →
    (i ∉ Model.spawnedEntities_ m) ∧
    AccessMatrix.deref (Model.accessMatrix_ m) i
      = Some (AccessMatrix.defaultAccessors_ M);
  wf_components : length (Model.components_ m) = M;
  wf_stores : ∀ T c, Model.components_ m !! T = Some c → store_ok m T c
}.

(** [s] has every bit of [sSys]: the test [(s & sSys) == sSys]. *)
Definition satisfies (s sSys : Model.Signature_) : Prop := N.land s sSys = sSys.

(** The working set of [sys] holds exactly the spawned entities whose
    signature satisfies the signature of [sys]. *)
Definition working_set_exact m (sys : Model.System_ F) : Prop :=
  ∀ e, e ∈ System.entities_ sys ↔
       e ∈ Model.spawnedEntities_ m ∧
       ∃ s, Model.computeSignature_of M m e = Some s ∧
            satisfies s (System.signature sys).

Definition membership_invariant m : Prop :=
  ∀ h sys, Model.systems_ m !! h = Some sys → working_set_exact m sys.

(** The public operations that change the state. *)
Inductive op : Type :=
| CreateEntity
| RemoveEntity (e : Model.Entity)
| Insert (T : nat) (e : Model.Entity) (val : V)
| Remove (T : nat) (e : Model.Entity)
| CreateSystem (hSys : Model.SystemHandle) (Us : list nat) (f : F)
| RemoveSystem (hSys : Model.SystemHandle).

Definition run m (o : op) : option (Model.t V F) :=
  match o with
  | CreateEntity => fst <$> Model.createEntity Nb M m
  | RemoveEntity e => Model.removeEntity M m e
  | Insert T e val => Model.insert M m T e val
  | Remove T e => Model.remove m T e
  | CreateSystem hSys Us f => fst <$> Model.createSystem M m hSys Us f
  | RemoveSystem hSys => Some (Model.removeSystem m hSys)
  end.

(** The caller contract of each operation: entities are spawned, a type
    is one of the declared ones, a component is inserted where there is
    none and removed where there is one, a store stays below the size
    at which an offset would collide with the sentinel, and a new system
    gets an address no registered system has. *)
Definition legal m (o : op) : Prop :=
  match o with
  | CreateEntity => 0 < Nb
  | RemoveEntity e => e ∈ Model.spawnedEntities_ m
  | Insert T e _ =>
      e ∈ Model.spawnedEntities_ m ∧
      Model.hasAccess_ m T e = Some false ∧
      match Model.getComponent_ m T with
      | Some c =>
          (N.of_nat (length (Component.owners_ c))
             < AccessMatrix.maxAccessor_)%N
      | None => False
      end
  | Remove T e => e ∈ Model.spawnedEntities_ m ∧ owns m T e
  | CreateSystem hSys Us _ =>
      (hSys ∉ dom (Model.systems_ m)) ∧ Forall (λ U, U < M) Us
  | RemoveSystem hSys => True
  end.

#[global] Instance legal_dec m o : Decision (legal m o).
Proof. destruct o; simpl; unfold owns; try apply _. case_match; apply _. Defined.

(** Run a list of calls, giving up at the first call that is not legal. *)
Fixpoint run_legal m (os : list op) : option (Model.t V F) :=
  match os with
  | [] => Some m
  | o :: os =>
      if decide (legal m o) then m' ← run m o; run_legal m' os else None
  end.

Inductive reachable : Model.t V F → Prop :=
| reachable_empty : reachable (Model.empty M)
| reachable_step m o m' :
    reachable m → legal m o → run m o = Some m' → reachable m'.
End wellformed.

(** ** Concrete scenarios

    Two component types ([M = 2]), blocks of two slots ([Nb = 2]), natural
    numbers as component values and [unit] for the callbacks.  The first
    entity handed out is [(0, 0)], the second [(0, 1)]. *)

Module Scenario.

Abbreviation model := (Model.t nat unit).

Definition fresh : model := Model.empty 2.

Definition e1 : Model.Entity := (0, 0).
Definition e2 : Model.Entity := (0, 1).

(** Two entities, each with a component of type 0. *)
Definition two_owners_ops : list (@op nat unit) :=
  [CreateEntity; CreateEntity; Insert 0 e1 5; Insert 0 e2 6].

Definition two_owners : model :=
  default fresh (run_legal 2 2 fresh two_owners_ops).

(** A system that requires nothing, then one entity with a component of
    type 0 ... *)
Definition lone_ops : list (@op nat unit) :=
  [CreateSystem 0 [] tt; CreateEntity; Insert 0 e1 7].

(** ... and the component removed again. *)
Definition toggle_ops : list (@op nat unit) := lone_ops ++ [Remove 0 e1].

(** One entity with both components and a system that requires both. *)
Definition both_ops : list (@op nat unit) :=
  [CreateEntity; Insert 0 e1 7; Insert 1 e1 8; CreateSystem 0 [0; 1] tt].

(** The same, with the entity destroyed in the end. *)
Definition destroy_ops : list (@op nat unit) := both_ops ++ [RemoveEntity e1].

End Scenario.

(** ** utils.hpp *)

Module utils.
Section index.
(** Types are the values of a type [Ty] with decidable equality. *)
Context {Ty : Type} `{!EqDecision Ty}.

(** [indexVariadicTypePack<T, Ts...>].  The specialisation
    [_indexVtp<T, T, Ts...>] gives 0, [_indexVtp<T, U, Ts...>] gives one
    more than the index in the rest; for an empty pack only the undefined
    primary template is left and the program does not compile: [None]. *)
Fixpoint indexVariadicTypePack (T : Ty) (Ts : list Ty) : option nat :=
  match Ts with
  | [] => None
  | U :: Ts =>
      if decide (T = U) then Some 0 else S <$> indexVariadicTypePack T Ts
  end.
End index.
End utils.

(** ** Systems that require one component type *)

Section single.
Context (Nb M : nat) {V F : Type}.
Implicit Types (m : Model.t V F) (e : Model.Entity) (T : nat).

(** [e] owns a component of every type whose bit is in [sSys], and
    [sSys] has no bit beyond the declared types. *)
Definition owns_all m e (sSys : Model.Signature_) : Prop :=
  ∀ n, N.testbit sSys n = true → N.to_nat n < M ∧ owns m (N.to_nat n) e.

(** Every registered system requires exactly one declared type. *)
Definition single_typed m : Prop :=
  ∀ h sys, Model.systems_ m !! h = Some sys →
           ∃ U, U < M ∧ System.signature sys = Model.computeSignature_ [U].

(** A call that, when it creates a system, gives it one required type. *)
Definition single_system (o : @op V F) : Prop :=
  match o with
  | CreateSystem _ Us _ => length Us = 1
  | _ => True
  end.

(** A call other than [remove<T>] and [removeEntity]. *)
Definition keeps_components (o : @op V F) : Prop :=
  match o with
  | Remove _ _ | RemoveEntity _ => False
  | _ => True
  end.
End single.

(** ** Scenarios with registered systems

    As in [Scenario]: two component types, blocks of two slots. *)

Module Tour.

(** A system requiring the first type and a system requiring nothing,
    two entities, one component each; nothing is removed. *)
Definition mixed_ops : list (@op nat unit) :=
  [CreateSystem 5 [0] tt; CreateSystem 6 [] tt; CreateEntity; CreateEntity;
   Insert 0 Scenario.e1 5; Insert 1 Scenario.e2 9].

Definition mixed : Scenario.model :=
  default Scenario.fresh (run_legal 2 2 Scenario.fresh mixed_ops).

(** Two systems of one required type each; components come and go and an
    entity is destroyed. *)
Definition single_ops : list (@op nat unit) :=
  [CreateSystem 5 [0] tt; CreateSystem 6 [1] tt; CreateEntity; CreateEntity;
   Insert 0 Scenario.e1 5; Insert 0 Scenario.e2 6; Insert 1 Scenario.e1 9;
   Remove 0 Scenario.e1; RemoveEntity Scenario.e2].

Definition single : Scenario.model :=
  default Scenario.fresh (run_legal 2 2 Scenario.fresh single_ops).

(** A system requiring nothing and one entity: one slot is free. *)
Definition one_ops : list (@op nat unit) :=
  [CreateSystem 6 [] tt; CreateEntity].

Definition one : Scenario.model :=
  default Scenario.fresh (run_legal 2 2 Scenario.fresh one_ops).

End Tour.

(** ** Calls outside the caller contract

    [insert<T>] does not check that the entity has no [T] yet, and no
    call checks that its entity is spawned.  The two runs below use
    that; blocks and component types are as in [Scenario]. *)

Module Stale.

(** The third entity handed out: the first slot of the second block. *)
Definition e3 : Model.Entity := (1, 0).

(** The calls of a list in order, whether legal or not. *)
Definition run_all (m : Scenario.model) (os : list (@op nat unit)) :
    option Scenario.model :=
  foldM (run 2 2) m os.

(** Three entities with a component of type 0 each; the third entity is
    given a second one, and then the component of the first entity is
    removed. *)
Definition twice_ops : list (@op nat unit) :=
  [CreateEntity; CreateEntity; CreateEntity;
   Insert 0 Scenario.e1 1; Insert 0 Scenario.e2 2; Insert 0 e3 5;
   Insert 0 e3 9; Remove 0 Scenario.e1].

Definition twice : Scenario.model :=
  default Scenario.fresh (run_all Scenario.fresh twice_ops).



End Stale.

(** * Facts about the definitions *)

(** ** Vectors and component stores *)

Section ComponentFacts.
Context {T E : Type}.
Implicit Types (c : Component.t T E) (a : N).

Lemma Vec_back_is_Some {A} (v : list A) : 0 < length v → is_Some (Vec.back v).
Proof.
  unfold Vec.back. rewrite last_lookup. intros Hlen.
  apply lookup_lt_is_Some. lia.
Qed.

Lemma Vec_shrink_length {A} (v : list A) : length (Vec.shrink v) = length v - 1.
Proof. unfold Vec.shrink. rewrite length_take. lia. Qed.

Lemma Vec_shrink_lookup {A} (v : list A) j :
  j < length v - 1 → Vec.shrink v !! j = v !! j.
Proof. intros Hj. unfold Vec.shrink. by rewrite lookup_take_lt. Qed.

Lemma Component_remove_defined c a :
  N.to_nat a < length (Component.owners_ c) →
  length (Component.data_ c) = length (Component.owners_ c) →
  ∃ e v,
    Vec.back (Component.owners_ c) = Some e ∧
    Vec.back (Component.data_ c) = Some v ∧
    Component.remove c a =
      Some ({| Component.data_ :=
                 Vec.shrink (<[N.to_nat a := v]> (Component.data_ c));
               Component.owners_ :=
                 Vec.shrink (<[N.to_nat a := e]> (Component.owners_ c)) |}, e).
Proof.
  intros Ha Hlen.
  destruct (Vec_back_is_Some (Component.owners_ c)) as [e He]; [lia|].
  destruct (Vec_back_is_Some (Component.data_ c)) as [v Hv]; [lia|].
  exists e, v. split_and!; [done..|].
  unfold Component.remove, Vec.assign. rewrite He, Hv. simpl.
  rewrite !decide_True by lia. simpl.
  rewrite list_lookup_insert_eq by done. done.
Qed.
End ComponentFacts.
(** The layout of the store after [remove(a)]: the former last value and
    owner sit at offset [a] unless [a] was the last offset, the other
    offsets keep their contents, and both vectors lost their last cell. *)
Lemma Component_remove_effect {T E} (c : Component.t T E) (a : N) :
  N.to_nat a < length (Component.owners_ c) →
  length (Component.data_ c) = length (Component.owners_ c) →
  let i := N.to_nat a in
  let n := length (Component.owners_ c) in
  ∃ c' lastE lastV,
    Component.owners_ c !! (n - 1) = Some lastE ∧
    Component.data_ c !! (n - 1) = Some lastV ∧
    Component.remove c a = Some (c', lastE) ∧
    length (Component.data_ c') = n - 1 ∧
    length (Component.owners_ c') = n - 1 ∧
    (∀ j, j < n - 1 → j ≠ i →
       Component.data_ c' !! j = Component.data_ c !! j ∧
       Component.owners_ c' !! j = Component.owners_ c !! j) ∧
    (i ≠ n - 1 →
       Component.data_ c' !! i = Some lastV ∧
       Component.owners_ c' !! i = Some lastE).
Proof.
  intros Ha Hlen i n.
  destruct (Component_remove_defined c a Ha Hlen) as (e & v & He & Hv & Hrm).
  unfold Vec.back in He, Hv. rewrite last_lookup in He. rewrite last_lookup in Hv.
  replace (pred (length (Component.owners_ c))) with (n - 1) in He by (subst n; lia).
  replace (pred (length (Component.data_ c))) with (n - 1) in Hv by (subst n; lia).
  eexists _, e, v. split_and!; [done | done | exact Hrm | ..]; simpl.
  - rewrite Vec_shrink_length, length_insert. subst n. lia.
  - rewrite Vec_shrink_length, length_insert. done.
  - intros j Hj Hne.
    rewrite !Vec_shrink_lookup by (rewrite length_insert; subst n; lia).
    by rewrite !list_lookup_insert_ne by done.
  - intros Hne.
    rewrite !Vec_shrink_lookup by (rewrite length_insert; subst n i; lia).
    rewrite !list_lookup_insert_eq by (subst n i; lia). done.
Qed.

(** ** The access matrix *)

Section AccessMatrixFacts.
Context (Nb M : nat).
Implicit Types (am : AccessMatrix.t) (i j : AccessMatrix.Index)
  (acc : AccessMatrix.Accessors_) (p q : nat) (v : N).

Lemma store_Some am i acc :
  is_Some (AccessMatrix.deref am i) →
  ∃ am', AccessMatrix.store am i acc = Some am' ∧
         AccessMatrix.available_ am' = AccessMatrix.available_ am ∧
         AccessMatrix.deref am' i = Some acc ∧
         ∀ j, j ≠ i → AccessMatrix.deref am' j = AccessMatrix.deref am j.
Proof.
  intros [old Hold]. unfold AccessMatrix.store. rewrite Hold. simpl.
  eexists. split; [done|]. split; [done|].
  unfold AccessMatrix.deref in *. simpl.
  destruct (AccessMatrix.data_ am !! i.1) as [blk|] eqn:Hblk; [|done].
  simpl in Hold. split.
  - rewrite list_lookup_alter_eq, Hblk. simpl.
    apply list_lookup_insert_eq. by eapply lookup_lt_Some.
  - intros j Hne. destruct (decide (j.1 = i.1)) as [Heq|Hne1].
    + rewrite Heq, list_lookup_alter_eq, Hblk. simpl.
      apply list_lookup_insert_ne. destruct i, j; simpl in *; congruence.
    + by rewrite list_lookup_alter_ne.
Qed.

Lemma store_inv am i acc am' :
  AccessMatrix.store am i acc = Some am' →
  AccessMatrix.available_ am' = AccessMatrix.available_ am ∧
  AccessMatrix.deref am' i = Some acc ∧
  ∀ j, j ≠ i → AccessMatrix.deref am' j = AccessMatrix.deref am j.
Proof.
  intros Hst.
  destruct (AccessMatrix.deref am i) as [old|] eqn:Hold.
  - destruct (store_Some am i acc) as (am'' & Hst' & ?); [by eexists|].
    rewrite Hst in Hst'. by simplify_eq.
  - unfold AccessMatrix.store in Hst. by rewrite Hold in Hst.
Qed.

Lemma set_Some am i p v acc :
  AccessMatrix.deref am i = Some acc → p < length acc →
  ∃ am', AccessMatrix.set am i p v = Some am' ∧
         AccessMatrix.available_ am' = AccessMatrix.available_ am ∧
         AccessMatrix.deref am' i = Some (<[p := v]> acc) ∧
         ∀ j, j ≠ i → AccessMatrix.deref am' j = AccessMatrix.deref am j.
Proof.
  intros Hacc Hp. unfold AccessMatrix.set, Vec.assign. rewrite Hacc. simpl.
  rewrite decide_True by done. simpl.
  apply store_Some. by eexists.
Qed.

Lemma set_inv am i p v am' :
  AccessMatrix.set am i p v = Some am' →
  ∃ acc, AccessMatrix.deref am i = Some acc ∧ p < length acc ∧
         AccessMatrix.available_ am' = AccessMatrix.available_ am ∧
         AccessMatrix.deref am' i = Some (<[p := v]> acc) ∧
         ∀ j, j ≠ i → AccessMatrix.deref am' j = AccessMatrix.deref am j.
Proof.
  intros Hset. unfold AccessMatrix.set, Vec.assign in Hset.
  destruct (AccessMatrix.deref am i) as [acc|] eqn:Hacc; [|done].
  simpl in Hset. case_decide; [|done]. simpl in Hset.
  exists acc. split; [done|]. split; [done|]. by apply store_inv.
Qed.

(** Reading after a write. *)
Lemma get_set am i p v am' j q :
  AccessMatrix.set am i p v = Some am' →
  AccessMatrix.get am' j q =
    if decide (j = i ∧ q = p) then Some v else AccessMatrix.get am j q.
Proof.
  intros (acc & Hacc & Hp & _ & Hi & Hj)%set_inv. unfold AccessMatrix.get.
  destruct (decide (j = i)) as [->|Hne].
  - rewrite Hi, Hacc. simpl. destruct (decide (q = p)) as [->|Hq].
    + rewrite decide_True by done. by apply list_lookup_insert_eq.
    + rewrite decide_False by naive_solver. by apply list_lookup_insert_ne.
  - rewrite Hj by done. rewrite decide_False by naive_solver. done.
Qed.

Lemma has_set am i p v am' j q :
  AccessMatrix.set am i p v = Some am' →
  AccessMatrix.has am' j q =
    if decide (j = i ∧ q = p)
    then Some (negb (v =? AccessMatrix.maxAccessor_)%N)
    else AccessMatrix.has am j q.
Proof.
  intros Hset. unfold AccessMatrix.has. rewrite (get_set _ _ _ _ _ _ _ Hset).
  by case_decide.
Qed.

Lemma get_default am i p :
  AccessMatrix.deref am i = Some (AccessMatrix.defaultAccessors_ M) →
  p < M → AccessMatrix.get am i p = Some AccessMatrix.maxAccessor_.
Proof.
  intros Hd Hp. unfold AccessMatrix.get. rewrite Hd. simpl.
  by apply lookup_replicate_2.
Qed.

Lemma get_is_Some am i p :
  (∃ acc, AccessMatrix.deref am i = Some acc ∧ length acc = M) → p < M →
  is_Some (AccessMatrix.get am i p).
Proof.
  intros (acc & Hacc & Hlen) Hp. unfold AccessMatrix.get. rewrite Hacc. simpl.
  apply lookup_lt_is_Some. lia.
Qed.

(** A new block: old slots unchanged, new slots default. *)
Lemma expand_available am :
  AccessMatrix.available_ (AccessMatrix.expand_ Nb M am) =
    reverse ((λ k, (length (AccessMatrix.data_ am), k)) <$> seq 0 Nb)
    ++ AccessMatrix.available_ am.
Proof.
  unfold AccessMatrix.expand_. simpl.
  generalize (AccessMatrix.available_ am) as av.
  generalize (length (AccessMatrix.data_ am)) as b.
  intros b. induction (seq 0 Nb) as [|k ks IH]; intros av; simpl; [done|].
  rewrite IH, reverse_cons, <-app_assoc. done.
Qed.

Lemma expand_deref_old am i :
  is_Some (AccessMatrix.deref am i) →
  AccessMatrix.deref (AccessMatrix.expand_ Nb M am) i = AccessMatrix.deref am i.
Proof.
  intros [acc Hacc]. unfold AccessMatrix.deref in *. simpl.
  destruct (AccessMatrix.data_ am !! i.1) as [blk|] eqn:Hblk; [|done].
  by rewrite (lookup_app_l_Some _ _ _ _ Hblk).
Qed.

Lemma expand_deref_new am k :
  k < Nb →
  AccessMatrix.deref (AccessMatrix.expand_ Nb M am)
    (length (AccessMatrix.data_ am), k)
  = Some (AccessMatrix.defaultAccessors_ M).
Proof.
  intros Hk. unfold AccessMatrix.deref. simpl.
  rewrite lookup_app_r by done. rewrite Nat.sub_diag. simpl.
  by apply lookup_replicate_2.
Qed.

Lemma make_pop am av i :
  AccessMatrix.available_ am = av ++ [i] →
  AccessMatrix.make Nb M am =
    Some ({| AccessMatrix.data_ := AccessMatrix.data_ am;
             AccessMatrix.available_ := av |}, i).
Proof.
  intros Hav. unfold AccessMatrix.make, Vec.back, Vec.shrink.
  rewrite decide_False by (rewrite Hav; by destruct av).
  rewrite Hav, last_snoc. simpl. rewrite length_app. simpl.
  replace (length av + 1 - 1) with (length av) by lia.
  by rewrite take_app_length.
Qed.

Lemma make_expand am :
  AccessMatrix.available_ am = [] → 0 < Nb →
  AccessMatrix.make Nb M am =
    Some ({| AccessMatrix.data_ :=
               AccessMatrix.data_ (AccessMatrix.expand_ Nb M am);
             AccessMatrix.available_ :=
               reverse ((λ k, (length (AccessMatrix.data_ am), k))
                          <$> seq 1 (Nb - 1)) |},
          (length (AccessMatrix.data_ am), 0)).
Proof.
  intros Hav HNb.
  assert (AccessMatrix.available_ (AccessMatrix.expand_ Nb M am) =
          reverse ((λ k, (length (AccessMatrix.data_ am), k))
                     <$> seq 1 (Nb - 1))
          ++ [(length (AccessMatrix.data_ am), 0)]) as Hexp.
  { rewrite expand_available, Hav, app_nil_r.
    destruct Nb as [|n]; [lia|]. simpl. rewrite Nat.sub_0_r.
    by rewrite reverse_cons. }
  unfold AccessMatrix.make, Vec.back, Vec.shrink.
  rewrite decide_True by done.
  rewrite Hexp, last_snoc. simpl. rewrite length_app. simpl.
  match goal with |- context [take (?n + 1 - 1) _] =>
    replace (n + 1 - 1) with n by lia end.
  by rewrite take_app_length.
Qed.

Lemma free_Some am i :
  is_Some (AccessMatrix.deref am i) →
  ∃ am', AccessMatrix.free M am i = Some am' ∧
         AccessMatrix.available_ am' = AccessMatrix.available_ am ++ [i] ∧
         AccessMatrix.deref am' i = Some (AccessMatrix.defaultAccessors_ M) ∧
         ∀ j, j ≠ i → AccessMatrix.deref am' j = AccessMatrix.deref am j.
Proof.
  intros Hi.
  destruct (store_Some am i (AccessMatrix.defaultAccessors_ M) Hi)
    as (am1 & Hst & Hav & Hd & Hother).
  unfold AccessMatrix.free, Vec.push_back. rewrite Hst. simpl.
  eexists. split; [done|]. simpl. rewrite Hav. done.
Qed.
End AccessMatrixFacts.

(** ** The slot allocator *)

Section MakeFacts.
Context (Nb M : nat).
Implicit Types (am : AccessMatrix.t) (i j : AccessMatrix.Index).

(** [make] hands out a slot that was available or lies in a new block;
    available slots stay distinct and default, existing slots keep their
    contents. *)
Lemma make_inv am am' i :
  AccessMatrix.make Nb M am = Some (am', i) →
  NoDup (AccessMatrix.available_ am) →
  (∀ k, k ∈ AccessMatrix.available_ am →
        AccessMatrix.deref am k = Some (AccessMatrix.defaultAccessors_ M)) →
  NoDup (i :: AccessMatrix.available_ am') ∧
  (∀ k, k ∈ i :: AccessMatrix.available_ am' →
        AccessMatrix.deref am' k = Some (AccessMatrix.defaultAccessors_ M) ∧
        (k ∈ AccessMatrix.available_ am ∨ AccessMatrix.deref am k = None)) ∧
  (∀ j, is_Some (AccessMatrix.deref am j) →
        AccessMatrix.deref am' j = AccessMatrix.deref am j).
Proof.
  intros Hmake Hnd Hdef.
  destruct (AccessMatrix.available_ am) as [|x av0 _] eqn:Hav using rev_ind.
  - destruct (decide (0 < Nb)) as [HNb|HNb].
    + rewrite (make_expand Nb M am Hav HNb) in Hmake.
      injection Hmake as <- <-. simpl.
      set (b := length (AccessMatrix.data_ am)).
      assert (∀ k, k ∈ (b, 0) :: reverse ((λ k, (b, k)) <$> seq 1 (Nb - 1)) →
                   k.1 = b ∧ k.2 < Nb) as Hnew.
      { intros k [->|Hk]%elem_of_cons; [simpl; lia|].
        apply elem_of_reverse, list_elem_of_fmap in Hk as (k' & -> & Hk').
        apply elem_of_seq in Hk'. simpl. lia. }
      split_and!.
      * apply NoDup_cons. split.
        -- intros Hin. apply elem_of_reverse, list_elem_of_fmap in Hin
             as (k' & [= Hk'] & Hin). apply elem_of_seq in Hin. lia.
        -- rewrite reverse_Permutation. apply NoDup_fmap_2; [|apply NoDup_seq].
           intros k1 k2 [= ->]. done.
      * intros k Hk. destruct (Hnew k Hk) as [Hk1 Hk2]. destruct k as [kb kp].
        simpl in *. subst kb. split.
        -- by apply (expand_deref_new Nb M am kp).
        -- right. unfold AccessMatrix.deref. simpl. fold b.
           rewrite (lookup_ge_None_2 _ b); [done|]. subst b. lia.
      * intros j Hj. by apply (expand_deref_old Nb M am j).
    + unfold AccessMatrix.make, Vec.back in Hmake.
      rewrite decide_True in Hmake by done.
      rewrite expand_available, Hav, app_nil_r in Hmake.
      replace Nb with 0 in Hmake by lia. done.
  - rewrite (make_pop Nb M am av0 x Hav) in Hmake. injection Hmake as <- <-. simpl.
    apply NoDup_app in Hnd as (Hnd0 & Hdisj & _).
    split_and!.
    + apply NoDup_cons. split; [|done]. intros Hin. apply (Hdisj _ Hin). set_solver.
    + intros k Hk. split.
      * apply Hdef. set_solver.
      * left. set_solver.
    + done.
Qed.

Lemma make_is_Some am :
  AccessMatrix.available_ am ≠ [] ∨ 0 < Nb →
  is_Some (AccessMatrix.make Nb M am).
Proof.
  intros Hor.
  destruct (AccessMatrix.available_ am) as [|x av0 _] eqn:Hav using rev_ind.
  - destruct Hor as [?|HNb]; [done|].
    rewrite (make_expand Nb M am Hav HNb). by eexists.
  - rewrite (make_pop Nb M am av0 x Hav). by eexists.
Qed.
End MakeFacts.

(** ** Signatures *)

Section SignatureFacts.
Context (M : nat) {V F : Type}.
Implicit Types (m : Model.t V F) (e : Model.Entity) (s : Model.Signature_).

Lemma satisfies_testbit s sSys :
  satisfies s sSys ↔ ∀ n, N.testbit sSys n = true → N.testbit s n = true.
Proof.
  unfold satisfies. split.
  - intros Hland n Hn. rewrite <-Hland, N.land_spec in Hn.
    by apply andb_true_iff in Hn as [? _].
  - intros Hbits. apply N.bits_inj. intros n. rewrite N.land_spec.
    destruct (N.testbit sSys n) eqn:Hn; [|by rewrite andb_false_r].
    by rewrite (Hbits n Hn).
Qed.

Lemma satisfies_empty s : satisfies s 0%N.
Proof. unfold satisfies. apply N.land_0_r. Qed.

Lemma setbit_0_testbit (k : nat) (n : N) :
  N.testbit (N.setbit 0 (N.of_nat k)) n = bool_decide (N.to_nat n = k).
Proof.
  case_bool_decide as Hn.
  - subst k. rewrite N2Nat.id. apply N.setbit_eq.
  - rewrite N.setbit_neq by lia. apply N.bits_0.
Qed.

Lemma computeSignature_testbit (Us : list nat) (n : N) :
  N.testbit (Model.computeSignature_ Us) n = bool_decide (N.to_nat n ∈ Us).
Proof.
  unfold Model.computeSignature_.
  assert (∀ s0, N.testbit (foldl (λ s U, N.lor s (N.setbit 0 (N.of_nat U))) s0 Us) n
                = N.testbit s0 n || bool_decide (N.to_nat n ∈ Us)) as Hgen.
  { induction Us as [|U Us IH]; intros s0; cbn [foldl].
    - rewrite bool_decide_eq_false_2 by set_solver. by rewrite orb_false_r.
    - rewrite IH, N.lor_spec, setbit_0_testbit.
      destruct (N.testbit s0 n); simpl; [done|].
      apply eq_true_iff_eq. rewrite orb_true_iff, !bool_decide_eq_true.
      set_solver. }
  rewrite Hgen. by rewrite N.bits_0.
Qed.

(** The fold of [computeSignature_(e)] over the types [a, a + len). *)
Lemma foldM_signature m e (len a : nat) (s0 : Model.Signature_) :
  (∀ T, a ≤ T < a + len → is_Some (Model.hasAccess_ m T e)) →
  ∃ s,
    foldM (λ s T,
             h ← Model.hasAccess_ m T e;
             Some (N.lor s (if h : bool then N.setbit 0 (N.of_nat T) else 0%N)))
          s0 (seq a len) = Some s ∧
    ∀ n, N.testbit s n =
         N.testbit s0 n ||
         bool_decide (a ≤ N.to_nat n < a + len ∧
                      Model.hasAccess_ m (N.to_nat n) e = Some true).
Proof.
  revert a s0. induction len as [|len IH]; intros a s0 Hdef; simpl.
  - exists s0. split; [done|]. intros n.
    rewrite bool_decide_eq_false_2 by lia. by rewrite orb_false_r.
  - destruct (Hdef a) as [h Hh]; [lia|]. rewrite Hh. simpl.
    destruct (IH (S a) (N.lor s0 (if h then N.setbit 0 (N.of_nat a) else 0%N)))
      as (s & Hs & Hbits).
    { intros T HT. apply Hdef. lia. }
    exists s. split; [done|]. intros n. rewrite Hbits, N.lor_spec.
    destruct (N.testbit s0 n); simpl; [done|].
    apply eq_true_iff_eq. rewrite orb_true_iff, !bool_decide_eq_true.
    destruct (decide (N.to_nat n = a)) as [Hn|Hn].
    + rewrite Hn, Hh. destruct h.
      * rewrite setbit_0_testbit, bool_decide_eq_true. split; [|auto].
        intros _. split; [lia|done].
      * rewrite N.bits_0. split; [|naive_solver]. intros [?|[? _]]; [done|lia].
    + assert (N.testbit (if h then N.setbit 0 (N.of_nat a) else 0%N) n = false) as ->.
      { destruct h; [|apply N.bits_0].
        rewrite setbit_0_testbit. by apply bool_decide_eq_false_2. }
      split.
      * intros [?|[? ?]]; [done|]. split; [lia|done].
      * intros [? ?]. right. split; [lia|done].
Qed.

Lemma computeSignature_of_Some m e :
  (∀ T, T < M → is_Some (Model.hasAccess_ m T e)) →
  ∃ s, Model.computeSignature_of M m e = Some s ∧
       ∀ n, N.testbit s n =
            bool_decide (N.to_nat n < M ∧
                         Model.hasAccess_ m (N.to_nat n) e = Some true).
Proof.
  intros Hdef. destruct (foldM_signature m e M 0 0%N) as (s & Hs & Hbits).
  { intros T HT. apply Hdef. lia. }
  exists s. split; [exact Hs|]. intros n. rewrite Hbits, N.bits_0. simpl.
  apply bool_decide_ext. split; intros [? ?]; split; (lia || done).
Qed.

(** The signature depends on the accessors of [e] only. *)
Lemma computeSignature_of_ext m m' e :
  (∀ T, T < M → Model.hasAccess_ m' T e = Model.hasAccess_ m T e) →
  Model.computeSignature_of M m' e = Model.computeSignature_of M m e.
Proof.
  intros Hext. unfold Model.computeSignature_of.
  assert (∀ len a s0, a + len ≤ M →
    foldM (λ s T,
             h ← Model.hasAccess_ m' T e;
             Some (N.lor s (if h : bool then N.setbit 0 (N.of_nat T) else 0%N)))
          s0 (seq a len) =
    foldM (λ s T,
             h ← Model.hasAccess_ m T e;
             Some (N.lor s (if h : bool then N.setbit 0 (N.of_nat T) else 0%N)))
          s0 (seq a len)) as Hgen.
  { induction len as [|len IH]; intros a s0 Hle; simpl; [done|].
    rewrite Hext by lia. destruct (Model.hasAccess_ m a e); simpl; [|done].
    apply IH. lia. }
  apply Hgen. lia.
Qed.
End SignatureFacts.

(** ** [Model::insert] *)

Section ModelInsert.
  Context (Nb M : nat) {V F : Type}.
Implicit Types (m : Model.t V F) (e : Model.Entity) (T : nat).

Lemma slot_ok_has m e :
  slot_ok M (Model.accessMatrix_ m) e →
  ∀ T, T < M → is_Some (Model.hasAccess_ m T e).
Proof.
  intros Hslot T HT. unfold Model.hasAccess_, AccessMatrix.has.
  destruct (get_is_Some M _ _ T Hslot HT) as [a Ha]. rewrite Ha. by eexists.
Qed.

(** What [insert<T>(e, val)] does to each member of the model. *)
Lemma Model_insert_Some m T e val c :
  slot_ok M (Model.accessMatrix_ m) e → T < M →
  Model.components_ m !! T = Some c →
  ∃ m' s,
    Model.insert M m T e val = Some m' ∧
    AccessMatrix.set (Model.accessMatrix_ m) e T
      (N.of_nat (length (Component.data_ c))) = Some (Model.accessMatrix_ m') ∧
    Model.spawnedEntities_ m' = Model.spawnedEntities_ m ∧
    Model.components_ m' =
      <[T := (Component.insert c e val).1]> (Model.components_ m) ∧
    Model.computeSignature_of M m' e = Some s ∧
    Model.systems_ m' =
      (λ sys : Model.System_ F,
         if decide (N.land s (System.signature sys) = System.signature sys)
         then System.insert sys e else sys) <$> Model.systems_ m.
Proof.
  intros (acc & Hacc & Hlen) HT Hc.
  destruct (set_Some (Model.accessMatrix_ m) e T
              (N.of_nat (length (Component.data_ c))) acc Hacc)
    as (am' & Hset & Hav & Hde & Hdj); [lia|].
  set (m2 := Model.set_accessMatrix
               (Model.set_components m
                  (<[T := (Component.insert c e val).1]> (Model.components_ m)))
               am').
  destruct (computeSignature_of_Some M m2 e) as (s & Hs & _).
  { apply slot_ok_has. exists (<[T := N.of_nat (length (Component.data_ c))]> acc).
    split; [exact Hde|]. by rewrite length_insert. }
  exists (Model.insertInSystems_ m2 e s), s.
  split_and!; try done.
  assert (Model.insert M m T e val =
          (s' ← Model.computeSignature_of M m2 e;
           Some (Model.insertInSystems_ m2 e s'))) as ->.
  { unfold Model.insert, Model.getComponent_, Model.setAccess_. rewrite Hc. simpl.
    rewrite Hset. reflexivity. }
  rewrite Hs. done.
Qed.

End ModelInsert.

(** ** [Model::remove] *)

Section ModelRemove.
Context (Nb M : nat) {V F : Type}.
Implicit Types (m : Model.t V F) (e : Model.Entity) (T : nat).

Lemma has_of_get m T e :
  Model.hasAccess_ m T e =
    (a ← Model.getAccess_ m T e; Some (negb (a =? AccessMatrix.maxAccessor_)%N)).
Proof. reflexivity. Qed.

Lemma owns_get m T e :
  owns m T e ↔
  ∃ a, Model.getAccess_ m T e = Some a ∧ a ≠ AccessMatrix.maxAccessor_.
Proof.
  unfold owns, Model.hasAccess_, AccessMatrix.has, Model.getAccess_.
  destruct (AccessMatrix.get (Model.accessMatrix_ m) e T) as [a|]; simpl.
  - split.
    + intros [= Ha]. exists a. split; [done|].
      apply negb_true_iff, N.eqb_neq in Ha. done.
    + intros (a' & [= <-] & Hne). f_equal.
      by apply negb_true_iff, N.eqb_neq.
  - split; [done|]. by intros (? & ? & _).
Qed.

Lemma get_lt m T e a :
  slot_ok M (Model.accessMatrix_ m) e →
  Model.getAccess_ m T e = Some a → T < M.
Proof.
  intros (acc & Hacc & Hlen). unfold Model.getAccess_, AccessMatrix.get.
  rewrite Hacc. simpl. intros Hget%lookup_lt_Some. lia.
Qed.

Lemma slot_ok_set am i p v am' j :
  AccessMatrix.set am i p v = Some am' →
  slot_ok M am j → slot_ok M am' j.
Proof.
  intros (acc & Hacc & Hp & _ & Hi & Hj)%set_inv (acc' & Hacc' & Hlen).
  destruct (decide (j = i)) as [->|Hne].
  - exists (<[p := v]> acc). split; [done|].
    rewrite length_insert. congruence.
  - exists acc'. by rewrite Hj.
Qed.

(** What [remove<T>(e)] does to each member of a well-formed model in
    which [e] owns a [T]. *)
Lemma Model_remove_Some m T e :
  wf M m → e ∈ Model.spawnedEntities_ m → owns m T e →
  ∃ a c c' repE m',
    Model.getAccess_ m T e = Some a ∧ a ≠ AccessMatrix.maxAccessor_ ∧
    T < M ∧
    Model.components_ m !! T = Some c ∧
    Component.owners_ c !! N.to_nat a = Some e ∧
    Component.remove c a = Some (c', repE) ∧
    Vec.back (Component.owners_ c) = Some repE ∧
    repE ∈ Model.spawnedEntities_ m ∧
    Model.remove m T e = Some m' ∧
    Model.spawnedEntities_ m' = Model.spawnedEntities_ m ∧
    Model.components_ m' = <[T := c']> (Model.components_ m) ∧
    Model.systems_ m' =
      (λ sys : Model.System_ F,
         if decide (N.land (Model.computeSignature_ [T]) (System.signature sys)
                    = System.signature sys)
         then System.remove sys e else sys) <$> Model.systems_ m ∧
    AccessMatrix.available_ (Model.accessMatrix_ m')
      = AccessMatrix.available_ (Model.accessMatrix_ m) ∧
    (∀ j, slot_ok M (Model.accessMatrix_ m) j →
          slot_ok M (Model.accessMatrix_ m') j) ∧
    (∀ j, j ≠ e → j ≠ repE →
          AccessMatrix.deref (Model.accessMatrix_ m') j
          = AccessMatrix.deref (Model.accessMatrix_ m) j) ∧
    (∀ j q, Model.getAccess_ m' q j =
            if decide (j = e ∧ q = T) then Some AccessMatrix.maxAccessor_
            else if decide (j = repE ∧ q = T) then Some a
            else Model.getAccess_ m q j).
Proof.
  intros Hwf He Howns.
  destruct (proj1 (owns_get m T e) Howns) as (a & Ha & Hamax).
  pose proof (wf_spawned _ _ Hwf e He) as Hslot.
  pose proof (get_lt m T e a Hslot Ha) as HT.
  assert (is_Some (Model.components_ m !! T)) as [c Hc].
  { apply lookup_lt_is_Some. by rewrite (wf_components _ _ Hwf). }
  pose proof (wf_stores _ _ Hwf T c Hc) as Hst.
  pose proof (store_accessor _ _ _ Hst e a He Ha Hamax) as Hown.
  destruct (Component_remove_defined c a) as (repE & v & HrepE & Hv & Hrm).
  { by eapply lookup_lt_Some. }
  { apply Hst. }
  assert (repE ∈ Model.spawnedEntities_ m) as Hrep.
  { unfold Vec.back in HrepE. rewrite last_lookup in HrepE.
    by apply (store_owner _ _ _ Hst) in HrepE as [? _]. }
  destruct Hslot as (acc & Hacc & Hlen).
  destruct (set_Some (Model.accessMatrix_ m) e T AccessMatrix.maxAccessor_ acc Hacc)
    as (am1 & Hreset & Hav1 & Hde1 & Hdj1); [lia|].
  assert (∃ am2,
    (if decide (repE ≠ e) then AccessMatrix.set am1 repE T a else Some am1)
      = Some am2) as [am2 Ham2].
  { case_decide as Hne; [|by eexists].
    destruct (wf_spawned _ _ Hwf repE Hrep) as (accR & HaccR & HlenR).
    destruct (set_Some am1 repE T a accR) as (am2 & Hset2 & _); [|lia|by eexists].
    by rewrite Hdj1. }
  match type of Hrm with _ = Some (?x, _) => set (c' := x) in * end.
  set (m1 := Model.set_components m (<[T := c']> (Model.components_ m))).
  exists a, c, c', repE,
    (Model.removeFromSystems_ (Model.set_accessMatrix m1 am2) e
       (Model.computeSignature_ [T])).
  split_and!; try done.
  - unfold Model.remove, Model.getComponent_, Model.resetAccess_,
      Model.setAccess_, AccessMatrix.reset.
    rewrite Ha. simpl. rewrite Hc. simpl. rewrite Hrm. simpl.
    rewrite Hreset. simpl.
    case_decide; simpl in *; [rewrite Ham2|injection Ham2 as <-]; done.
  - simpl. case_decide.
    + apply set_inv in Ham2 as (_ & _ & _ & -> & _). done.
    + by injection Ham2 as <-.
  - simpl. intros j Hj. case_decide.
    + eapply slot_ok_set; [exact Ham2|]. eapply slot_ok_set; [exact Hreset|done].
    + injection Ham2 as <-. eapply slot_ok_set; [exact Hreset|done].
  - simpl. intros j Hje HjR. case_decide.
    + apply set_inv in Ham2 as (_ & _ & _ & _ & _ & Hd2).
      rewrite Hd2 by done. by apply Hdj1.
    + injection Ham2 as <-. by apply Hdj1.
  - intros j q. unfold Model.getAccess_. simpl.
    destruct (decide (repE ≠ e)) as [Hne|Heq].
    + rewrite (get_set _ _ _ _ _ j q Ham2), (get_set _ _ _ _ _ j q Hreset).
      repeat case_decide; naive_solver.
    + injection Ham2 as <-. rewrite (get_set _ _ _ _ _ j q Hreset).
      apply dec_stable in Heq. repeat case_decide; naive_solver.
Qed.
End ModelRemove.

(** ** Well-formedness is kept by [insert] and [remove] *)

Section WellFormed.
Context (Nb M : nat) {V F : Type}.
Implicit Types (m : Model.t V F) (e : Model.Entity) (T : nat).

Lemma not_owns_get m T e :
  Model.hasAccess_ m T e = Some false ↔
  Model.getAccess_ m T e = Some AccessMatrix.maxAccessor_.
Proof.
  unfold Model.hasAccess_, AccessMatrix.has, Model.getAccess_.
  destruct (AccessMatrix.get (Model.accessMatrix_ m) e T) as [a|]; simpl; [|done].
  split.
  - intros [= Ha]. f_equal. by apply negb_false_iff, N.eqb_eq in Ha.
  - intros [= ->]. done.
Qed.

(** Well-formedness looks at the matrix, the spawned set and the stores
    only. *)
Lemma wf_ext m m' :
  Model.accessMatrix_ m' = Model.accessMatrix_ m →
  Model.spawnedEntities_ m' = Model.spawnedEntities_ m →
  Model.components_ m' = Model.components_ m →
  wf M m → wf M m'.
Proof.
  destruct m as [am sp cs ss], m' as [am' sp' cs' ss']. simpl.
  intros -> -> -> [H1 H2 H3 H4 H5]. constructor; try done.
  intros T c Hc. destruct (H5 T c Hc) as [? ? ? ?]. by constructor.
Qed.

Lemma wf_empty : wf M (Model.empty M : Model.t V F).
Proof.
  constructor; simpl.
  - set_solver.
  - constructor.
  - intros i Hi. by apply elem_of_nil in Hi.
  - apply length_replicate.
  - intros T c [-> _]%lookup_replicate. constructor; simpl.
    + done.
    + unfold AccessMatrix.maxAccessor_. lia.
    + intros a e Ha. by rewrite lookup_nil in Ha.
    + set_solver.
Qed.

Lemma wf_insert m T e val m' :
  wf M m → legal Nb M m (Insert T e val) →
  Model.insert M m T e val = Some m' → wf M m'.
Proof.
  intros Hwf (He & Hno & Hsize) Hins.
  destruct (Model.getComponent_ m T) as [c|] eqn:Hc; [|done].
  unfold Model.getComponent_ in Hc.
  assert (T < M) as HT.
  { rewrite <-(wf_components _ _ Hwf). by eapply lookup_lt_Some. }
  destruct (Model_insert_Some M m T e val c)
    as (m'' & s & Hins' & Hset & Hsp & Hcs & _); [by apply Hwf | done..|].
  rewrite Hins in Hins'. injection Hins' as <-.
  pose proof (wf_stores _ _ Hwf T c Hc) as Hst.
  apply not_owns_get in Hno.
  pose proof (set_inv _ _ _ _ _ Hset) as (acc & Hacc & _ & Hav & _ & Hother).
  assert (∀ j q, Model.getAccess_ m' q j =
                 if decide (j = e ∧ q = T)
                 then Some (N.of_nat (length (Component.data_ c)))
                 else Model.getAccess_ m q j) as Hget.
  { intros j q. unfold Model.getAccess_. apply (get_set _ _ _ _ _ _ _ Hset). }
  constructor.
  - intros j Hj. rewrite Hsp in Hj. eapply slot_ok_set; [exact Hset|]. by apply Hwf.
  - rewrite Hav. apply Hwf.
  - intros i Hi. rewrite Hav in Hi. rewrite Hsp.
    destruct (wf_available _ _ Hwf i Hi) as [Hni Hd]. split; [done|].
    rewrite Hother; [done|]. by intros ->.
  - rewrite Hcs, length_insert. apply Hwf.
  - intros T' c' Hc'. rewrite Hcs in Hc'.
    destruct (decide (T' = T)) as [->|HneT].
    + rewrite list_lookup_insert_eq in Hc' by (by eapply lookup_lt_Some).
      injection Hc' as <-. simpl. unfold Vec.push_back.
      constructor; simpl.
      * rewrite !length_app. simpl. by rewrite (store_lengths _ _ _ Hst).
      * rewrite length_app. simpl. lia.
      * intros a1 e1 Ha1. rewrite Hsp, Hget.
        apply lookup_app_Some in Ha1 as [Ha1|[Hge Ha1]].
        -- destruct (store_owner _ _ _ Hst a1 e1 Ha1) as [He1 Hg1].
           split; [done|]. rewrite decide_False; [done|].
           intros [-> _]. rewrite Hno in Hg1. injection Hg1 as Hg1.
           apply lookup_lt_Some in Ha1. lia.
        -- apply list_lookup_singleton_Some in Ha1 as [Ha1 <-].
           split; [done|]. rewrite decide_True by done.
           rewrite (store_lengths _ _ _ Hst). f_equal. lia.
      * intros e1 a1 He1 Hg1 Hmax1. rewrite Hsp in He1. rewrite Hget in Hg1.
        case_decide as Hcase.
        -- destruct Hcase as [-> _]. injection Hg1 as <-.
           rewrite Nat2N.id, (store_lengths _ _ _ Hst).
           by rewrite lookup_app_r, Nat.sub_diag.
        -- apply lookup_app_l_Some. by eapply (store_accessor _ _ _ Hst).
    + rewrite list_lookup_insert_ne in Hc' by done.
      destruct (wf_stores _ _ Hwf T' c' Hc') as [Hl Hb Ho Ha].
      constructor; try done.
      * intros a1 e1 Ha1. rewrite Hsp, Hget.
        rewrite decide_False by naive_solver. by apply Ho.
      * intros e1 a1 He1 Hg1 Hmax1. rewrite Hsp in He1. rewrite Hget in Hg1.
        rewrite decide_False in Hg1 by naive_solver. by apply Ha.
Qed.

Lemma wf_remove m T e m' :
  wf M m → legal Nb M m (Remove T e) →
  Model.remove m T e = Some m' → wf M m'.
Proof.
  intros Hwf [He Howns] Hremove.
  destruct (Model_remove_Some M m T e Hwf He Howns)
    as (a & c & c' & repE & m'' & Ha & Hamax & HT & Hc & Hown & Hrm & _
        & Hrep & Hremove' & Hsp & Hcs & _ & Hav & Hslot & Hderef & Hget).
  rewrite Hremove in Hremove'. injection Hremove' as <-.
  pose proof (wf_stores _ _ Hwf T c Hc) as Hst.
  pose proof (lookup_lt_Some _ _ _ Hown) as Hlt.
  destruct (Component_remove_effect c a Hlt (store_lengths _ _ _ Hst))
    as (c'' & lastE & lastV & HlastE & HlastV & Hrm' & Hld & Hlo & Hother & Hswap).
  rewrite Hrm in Hrm'. injection Hrm' as <- <-.
  pose proof (store_owner _ _ _ Hst _ _ HlastE) as [_ HgetR].
  pose proof (store_owner _ _ _ Hst _ _ Hown) as [_ HgetE].
  assert (repE = e → N.to_nat a = length (Component.owners_ c) - 1) as Hsame.
  { intros ->. rewrite HgetE in HgetR. injection HgetR as HgetR. lia. }
  assert (N.to_nat a = length (Component.owners_ c) - 1 → repE = e) as Hsame'.
  { intros Heq. rewrite Heq in Hown. congruence. }
  constructor.
  - intros j Hj. rewrite Hsp in Hj. apply Hslot. by apply Hwf.
  - rewrite Hav. apply Hwf.
  - intros i Hi. rewrite Hav in Hi. rewrite Hsp.
    destruct (wf_available _ _ Hwf i Hi) as [Hni Hd]. split; [done|].
    rewrite Hderef; [done|by intros ->..].
  - rewrite Hcs, length_insert. apply Hwf.
  - intros T' c1 Hc1. rewrite Hcs in Hc1.
    destruct (decide (T' = T)) as [->|HneT].
    + rewrite list_lookup_insert_eq in Hc1 by (by eapply lookup_lt_Some).
      injection Hc1 as <-.
      constructor.
      * congruence.
      * rewrite Hlo. pose proof (store_below_sentinel _ _ _ Hst). lia.
      * intros a1 e1 Ha1. rewrite Hsp, Hget.
        pose proof (lookup_lt_Some _ _ _ Ha1) as Hlt1. rewrite Hlo in Hlt1.
        destruct (decide (a1 = N.to_nat a)) as [->|Hne1].
        -- destruct Hswap as [_ Hsw]; [lia|]. rewrite Hsw in Ha1.
           injection Ha1 as <-. split; [done|].
           rewrite decide_False by (intros [Heq _]; apply Hsame in Heq; lia).
           rewrite decide_True by done. by rewrite N2Nat.id.
        -- destruct (Hother a1) as [_ Ho]; [done..|]. rewrite Ho in Ha1.
           destruct (store_owner _ _ _ Hst _ _ Ha1) as [He1 Hg1].
           split; [done|].
           rewrite decide_False.
           2:{ intros [-> _]. rewrite HgetE in Hg1. injection Hg1 as Hg1. lia. }
           rewrite decide_False; [done|].
           intros [-> _]. rewrite HgetR in Hg1. injection Hg1 as Hg1. lia.
      * intros e1 a1 He1 Hg1 Hmax1. rewrite Hsp in He1. rewrite Hget in Hg1.
        case_decide as Hc1; [by injection Hg1 as <-|].
        case_decide as Hc2.
        -- destruct Hc2 as [-> _]. injection Hg1 as <-.
           apply Hswap. intros Heq. apply Hsame' in Heq. naive_solver.
        -- pose proof (store_accessor _ _ _ Hst e1 a1 He1 Hg1 Hmax1) as Ho1.
           destruct (Hother (N.to_nat a1)) as [_ ->]; [| |done].
           ++ pose proof (lookup_lt_Some _ _ _ Ho1).
              assert (N.to_nat a1 ≠ length (Component.owners_ c) - 1); [|lia].
              intros Heq. rewrite Heq in Ho1. naive_solver.
           ++ intros Heq. rewrite Heq in Ho1. naive_solver.
    + rewrite list_lookup_insert_ne in Hc1 by done.
      destruct (wf_stores _ _ Hwf T' c1 Hc1) as [Hl Hb Ho Hacc].
      constructor; try done.
      * intros a1 e1 Ha1. rewrite Hsp, Hget.
        rewrite !decide_False by naive_solver. by apply Ho.
      * intros e1 a1 He1 Hg1 Hmax1. rewrite Hsp in He1. rewrite Hget in Hg1.
        rewrite !decide_False in Hg1 by naive_solver. by apply Hacc.
Qed.

(** In a well-formed model two entities that own a [T] have different
    offsets into the store of [T]. *)
Lemma wf_offsets_distinct m T e e' a a' :
  wf M m →
  e ∈ Model.spawnedEntities_ m → e' ∈ Model.spawnedEntities_ m → e ≠ e' →
  Model.getAccess_ m T e = Some a → a ≠ AccessMatrix.maxAccessor_ →
  Model.getAccess_ m T e' = Some a' → a' ≠ AccessMatrix.maxAccessor_ →
  a ≠ a'.
Proof.
  intros Hwf He He' Hne Ha Hmax Ha' Hmax' <-.
  assert (is_Some (Model.components_ m !! T)) as [c Hc].
  { apply lookup_lt_is_Some. rewrite (wf_components _ _ Hwf).
    by eapply get_lt; [apply Hwf|]. }
  pose proof (wf_stores _ _ Hwf T c Hc) as Hst.
  pose proof (store_accessor _ _ _ Hst e a He Ha Hmax).
  pose proof (store_accessor _ _ _ Hst e' a He' Ha' Hmax').
  congruence.
Qed.
End WellFormed.

(** ** [Model::createEntity] *)

Section CreateEntity.
Context (Nb M : nat) {V F : Type}.
Implicit Types (m : Model.t V F) (e : Model.Entity) (T : nat).

Lemma get_default_slot m T e a :
  AccessMatrix.deref (Model.accessMatrix_ m) e
    = Some (AccessMatrix.defaultAccessors_ M) →
  Model.getAccess_ m T e = Some a → a = AccessMatrix.maxAccessor_.
Proof.
  unfold Model.getAccess_, AccessMatrix.get. intros ->. simpl.
  by intros [-> _]%lookup_replicate.
Qed.

(** What [createEntity()] does to each member of a well-formed model. *)
Lemma Model_createEntity_inv m m' e :
  wf M m → Model.createEntity Nb M m = Some (m', e) →
  (e ∉ Model.spawnedEntities_ m) ∧
  Model.spawnedEntities_ m' = {[e]} ∪ Model.spawnedEntities_ m ∧
  Model.components_ m' = Model.components_ m ∧
  AccessMatrix.deref (Model.accessMatrix_ m') e
    = Some (AccessMatrix.defaultAccessors_ M) ∧
  (∀ j, j ∈ Model.spawnedEntities_ m →
        AccessMatrix.deref (Model.accessMatrix_ m') j
        = AccessMatrix.deref (Model.accessMatrix_ m) j) ∧
  Model.systems_ m' =
    (λ sys : Model.System_ F,
       if decide (N.land 0 (System.signature sys) = System.signature sys)
       then System.insert sys e else sys) <$> Model.systems_ m ∧
  wf M m'.
Proof.
  intros Hwf Hcreate. unfold Model.createEntity in Hcreate.
  destruct (AccessMatrix.make Nb M (Model.accessMatrix_ m)) as [[am' i]|] eqn:Hmake;
    [|done].
  simpl in Hcreate. injection Hcreate as <- <-.
  destruct (make_inv Nb M _ _ _ Hmake) as (Hnd & Hnew & Hold).
  { apply Hwf. }
  { intros k Hk. by apply (wf_available _ _ Hwf). }
  assert (∀ k, k ∈ i :: AccessMatrix.available_ am' →
               k ∉ Model.spawnedEntities_ m) as Hfresh.
  { intros k Hk Hsp. destruct (Hnew k Hk) as [_ [Hav|Hnone]].
    - by apply (wf_available _ _ Hwf) in Hav as [? _].
    - destruct (wf_spawned _ _ Hwf k Hsp) as (acc & Hacc & _). congruence. }
  assert (∀ j, j ∈ Model.spawnedEntities_ m →
               AccessMatrix.deref am' j
               = AccessMatrix.deref (Model.accessMatrix_ m) j) as Hkeep.
  { intros j Hj. apply Hold.
    destruct (wf_spawned _ _ Hwf j Hj) as (acc & Hacc & _). by eexists. }
  pose proof (Hnew i ltac:(set_solver)) as [Hdi _].
  split_and!; try done.
  - apply Hfresh. set_solver.
  - apply NoDup_cons in Hnd as [Hni Hnd].
    constructor; simpl.
    + intros j [->%elem_of_singleton|Hj]%elem_of_union.
      * exists (AccessMatrix.defaultAccessors_ M). split; [done|].
        apply length_replicate.
      * destruct (wf_spawned _ _ Hwf j Hj) as (acc & Hacc & Hlen).
        exists acc. by rewrite Hkeep.
    + done.
    + intros k Hk. split.
      * intros [->%elem_of_singleton|Hj]%elem_of_union; [done|].
        apply (Hfresh k); [set_solver|done].
      * apply Hnew. set_solver.
    + apply Hwf.
    + intros T c Hc. destruct (wf_stores _ _ Hwf T c Hc) as [Hl Hb Ho Ha].
      assert (∀ j, j ∈ Model.spawnedEntities_ m →
                   AccessMatrix.get am' j T
                   = AccessMatrix.get (Model.accessMatrix_ m) j T) as Hg.
      { intros j Hj. unfold AccessMatrix.get. by rewrite Hkeep. }
      constructor; try done; simpl.
      * intros a1 e1 Ha1. destruct (Ho a1 e1 Ha1) as [He1 Hg1].
        split; [set_solver|]. unfold Model.getAccess_. simpl. by rewrite Hg.
      * intros e1 a1 [->%elem_of_singleton|He1]%elem_of_union Hg1 Hmax1.
        -- exfalso. apply Hmax1.
           by eapply (get_default_slot
                        (Model.set_accessMatrix m am') T i a1).
        -- apply Ha; [done| |done]. unfold Model.getAccess_ in *. simpl in Hg1.
           by rewrite <-Hg.
Qed.

Lemma Model_createEntity_is_Some m :
  AccessMatrix.available_ (Model.accessMatrix_ m) ≠ [] ∨ 0 < Nb →
  is_Some (Model.createEntity Nb M m).
Proof.
  intros Hor. unfold Model.createEntity.
  destruct (make_is_Some Nb M (Model.accessMatrix_ m)) as [[am' i] ->]; [done|].
  by eexists.
Qed.
End CreateEntity.

(** ** [Model::removeEntity] *)

Section RemoveEntity.
Context (Nb M : nat) {V F : Type}.
Implicit Types (m : Model.t V F) (e : Model.Entity) (T : nat).

Lemma checkedRemove_inv m T e :
  wf M m → e ∈ Model.spawnedEntities_ m → T < M →
  ∃ m', Model.checkedRemove_ m T e = Some m' ∧
        wf M m' ∧
        Model.spawnedEntities_ m' = Model.spawnedEntities_ m ∧
        AccessMatrix.available_ (Model.accessMatrix_ m')
          = AccessMatrix.available_ (Model.accessMatrix_ m) ∧
        Model.hasAccess_ m' T e = Some false ∧
        ∀ q, q ≠ T → Model.getAccess_ m' q e = Model.getAccess_ m q e.
Proof.
  intros Hwf He HT. unfold Model.checkedRemove_.
  destruct (slot_ok_has M m e (wf_spawned _ _ Hwf e He) T HT) as [h Hh].
  rewrite Hh. simpl. destruct h.
  - destruct (Model_remove_Some M m T e Hwf He Hh)
      as (a & c & c' & repE & m' & _ & _ & _ & _ & _ & _ & _ & _ & Hremove
          & Hsp & _ & _ & Hav & _ & _ & Hget).
    exists m'. split_and!; try done.
    + by apply (wf_remove Nb M m T e).
    + apply not_owns_get. rewrite Hget. by rewrite decide_True.
    + intros q Hq. rewrite Hget. by rewrite !decide_False by naive_solver.
  - exists m. by split_and!.
Qed.

Lemma removeAll_inv m e (len k : nat) :
  k + len = M →
  wf M m → e ∈ Model.spawnedEntities_ m →
  (∀ q, q < k → Model.hasAccess_ m q e = Some false) →
  ∃ m', foldM (λ m' T, Model.checkedRemove_ m' T e) m (seq k len) = Some m' ∧
        wf M m' ∧
        Model.spawnedEntities_ m' = Model.spawnedEntities_ m ∧
        AccessMatrix.available_ (Model.accessMatrix_ m')
          = AccessMatrix.available_ (Model.accessMatrix_ m) ∧
        ∀ q, q < M → Model.hasAccess_ m' q e = Some false.
Proof.
  revert m k. induction len as [|len IH]; intros m k Hk Hwf He Hdone; simpl.
  - exists m. split_and!; try done. intros q Hq. apply Hdone. lia.
  - destruct (checkedRemove_inv m k e Hwf He) as (m1 & -> & Hwf1 & Hsp1 & Hav1 & Hno1 & Hget1);
      [lia|]. simpl.
    destruct (IH m1 (S k)) as (m' & Hfold & Hwf' & Hsp' & Hav' & Hno'); [lia|done| | |].
    + by rewrite Hsp1.
    + intros q Hq. destruct (decide (q = k)) as [->|Hne]; [done|].
      apply not_owns_get. rewrite Hget1 by done. apply not_owns_get, Hdone. lia.
    + exists m'. split_and!; try done; congruence.
Qed.

(** What [removeEntity(e)] does to a well-formed model. *)
Lemma Model_removeEntity_Some m e :
  wf M m → e ∈ Model.spawnedEntities_ m →
  ∃ m', Model.removeEntity M m e = Some m' ∧
        wf M m' ∧
        Model.spawnedEntities_ m' = Model.spawnedEntities_ m ∖ {[e]} ∧
        AccessMatrix.available_ (Model.accessMatrix_ m')
          = AccessMatrix.available_ (Model.accessMatrix_ m) ++ [e].
Proof.
  intros Hwf He.
  destruct (removeAll_inv m e M 0) as (m1 & Hfold & Hwf1 & Hsp1 & Hav1 & Hno1);
    [lia | done | done | intros; lia |].
  assert (e ∈ Model.spawnedEntities_ m1) as He1 by by rewrite Hsp1.
  destruct (wf_spawned _ _ Hwf1 e He1) as (acc & Hacc & Hlen).
  destruct (free_Some M (Model.accessMatrix_ m1) e) as (am' & Hfree & Hav' & Hde & Hdj);
    [by eexists|].
  unfold Model.removeEntity. rewrite Hfold. simpl. rewrite Hfree. simpl.
  eexists. split; [done|]. simpl. split_and!.
  - constructor; simpl.
    + intros j [Hj Hne%not_elem_of_singleton]%elem_of_difference.
      destruct (wf_spawned _ _ Hwf1 j Hj) as (accj & Haccj & Hlenj).
      exists accj. by rewrite Hdj.
    + rewrite Hav'. apply NoDup_app. split_and!.
      * apply Hwf1.
      * intros k Hk ->%list_elem_of_singleton.
        by apply (wf_available _ _ Hwf1) in Hk as [? _].
      * apply NoDup_singleton.
    + intros k Hk. rewrite Hav' in Hk.
      apply elem_of_app in Hk as [Hk| ->%list_elem_of_singleton].
      * destruct (wf_available _ _ Hwf1 k Hk) as [Hnk Hdk]. split; [set_solver|].
        rewrite Hdj; [done|]. by intros ->.
      * split; [set_solver|done].
    + apply Hwf1.
    + intros T c Hc. destruct (wf_stores _ _ Hwf1 T c Hc) as [Hl Hb Ho Ha].
      assert (T < M) as HT.
      { rewrite <-(wf_components _ _ Hwf1). by eapply lookup_lt_Some. }
      assert (∀ j, j ≠ e → AccessMatrix.get am' j T
                           = AccessMatrix.get (Model.accessMatrix_ m1) j T) as Hg.
      { intros j Hj. unfold AccessMatrix.get. by rewrite Hdj. }
      constructor; try done; simpl.
      * intros a1 e1 Ha1. destruct (Ho a1 e1 Ha1) as [He1' Hg1].
        assert (e1 ≠ e) as Hne.
        { intros ->. pose proof (Hno1 T HT) as Hno. apply not_owns_get in Hno.
          rewrite Hno in Hg1. injection Hg1 as Hg1.
          apply lookup_lt_Some in Ha1. lia. }
        split; [set_solver|]. unfold Model.getAccess_. simpl. by rewrite Hg.
      * intros e1 a1 [He1' Hne%not_elem_of_singleton]%elem_of_difference Hg1 Hmax1.
        apply Ha; [done| |done]. unfold Model.getAccess_ in *. simpl in Hg1.
        by rewrite <-Hg.
  - by rewrite Hsp1.
  - by rewrite Hav', Hav1.
Qed.
End RemoveEntity.

(** ** [Model::createSystem] *)

Section CreateSystem.
Context (Nb M : nat) {V F : Type}.
Implicit Types (m : Model.t V F) (e : Model.Entity) (T : nat).

(** The seeding loop of [createSystem] over a list of entities. *)
Lemma foldM_seed m (sSys : Model.Signature_) (l : list Model.Entity)
    (sys : Model.System_ F) :
  (∀ e, e ∈ l → is_Some (Model.computeSignature_of M m e)) →
  ∃ sys',
    foldM (λ (sys : Model.System_ F) e,
             s ← Model.computeSignature_of M m e;
             Some (if decide (N.land s sSys = sSys)
                   then System.insert sys e else sys)) sys l = Some sys' ∧
    System.signature_ sys' = System.signature_ sys ∧
    System.f_ sys' = System.f_ sys ∧
    ∀ e, e ∈ System.entities_ sys' ↔
         e ∈ System.entities_ sys ∨
         (e ∈ l ∧ ∃ s, Model.computeSignature_of M m e = Some s ∧
                       N.land s sSys = sSys).
Proof.
  revert sys. induction l as [|x l IH]; intros sys Hdef; simpl.
  - exists sys. split_and!; try done. intros e. set_solver.
  - destruct (Hdef x) as [s Hs]; [set_solver|]. rewrite Hs. simpl.
    destruct (IH (if decide (N.land s sSys = sSys)
                  then System.insert sys x else sys))
      as (sys' & Hfold & Hsig & Hf & Hmem).
    { intros e He. apply Hdef. set_solver. }
    exists sys'. split; [done|]. split_and!.
    + rewrite Hsig. by case_decide.
    + rewrite Hf. by case_decide.
    + intros e. rewrite Hmem. case_decide as Hsat; simpl.
      * split.
        -- intros [[->%elem_of_singleton|?]%elem_of_union|[? ?]].
           ++ right. split; [set_solver|]. by exists s.
           ++ by left.
           ++ right. split; [set_solver|done].
        -- intros [?|[[->|?]%elem_of_cons Hex]].
           ++ left. set_solver.
           ++ left. set_solver.
           ++ by right.
      * split.
        -- intros [?|[? ?]]; [by left|]. right. split; [set_solver|done].
        -- intros [?|[[->|?]%elem_of_cons Hex]]; [by left| |by right].
           destruct Hex as (s' & Hs' & Hsat'). congruence.
Qed.

Lemma computeSignature_of_spawned m e :
  wf M m → e ∈ Model.spawnedEntities_ m →
  ∃ s, Model.computeSignature_of M m e = Some s ∧
       ∀ n, N.testbit s n =
            bool_decide (N.to_nat n < M ∧
                         Model.hasAccess_ m (N.to_nat n) e = Some true).
Proof.
  intros Hwf He. apply computeSignature_of_Some, slot_ok_has. by apply Hwf.
Qed.

(** What [createSystem<Us...>(f)] does to a well-formed model. *)
Lemma Model_createSystem_Some m hSys Us f :
  wf M m →
  ∃ sys,
    Model.createSystem M m hSys Us f
      = Some (Model.set_systems m (<[hSys := sys]> (Model.systems_ m)), hSys) ∧
    System.signature_ sys = Model.computeSignature_ Us ∧
    System.f_ sys = f ∧
    ∀ e, e ∈ System.entities_ sys ↔
         e ∈ Model.spawnedEntities_ m ∧
         ∃ s, Model.computeSignature_of M m e = Some s ∧
              N.land s (Model.computeSignature_ Us) = Model.computeSignature_ Us.
Proof.
  intros Hwf.
  destruct (foldM_seed m (Model.computeSignature_ Us)
              (elements (Model.spawnedEntities_ m))
              (System.make (Model.computeSignature_ Us) f))
    as (sys & Hfold & Hsig & Hf & Hmem).
  { intros e He%elem_of_elements.
    destruct (computeSignature_of_spawned m e Hwf He) as (s & -> & _). by eexists. }
  exists sys. split_and!; try done.
  - exact (f_equal
             (λ o : option (Model.System_ F),
                o ≫= λ sys0,
                  Some (Model.set_systems m (<[hSys := sys0]> (Model.systems_ m)),
                        hSys))
             Hfold).
  - intros e. rewrite Hmem. simpl. rewrite elem_of_elements. set_solver.
Qed.
End CreateSystem.

(** ** Reachable states are well-formed *)

Section Reachable.
Context (Nb M : nat) {V F : Type}.
Implicit Types (m : Model.t V F) (e : Model.Entity) (T : nat) (o : op (V:=V) (F:=F)).

(** A legal call on a well-formed model is defined. *)
Lemma run_is_Some m o :
  wf M m → legal Nb M m o → is_Some (run Nb M m o).
Proof.
  intros Hwf Hlegal. destruct o as [|e|T e val|T e|hSys Us f|hSys]; simpl in *.
  - destruct (Model_createEntity_is_Some Nb M m) as [[m' e] ->]; [by right|].
    by eexists.
  - destruct (Model_removeEntity_Some Nb M m e Hwf Hlegal) as (m' & -> & _).
    by eexists.
  - destruct Hlegal as (He & _ & Hsize).
    destruct (Model.getComponent_ m T) as [c|] eqn:Hc; [|done].
    destruct (Model_insert_Some M m T e val c) as (m' & s & -> & _);
      [by apply Hwf| |done|by eexists].
    rewrite <-(wf_components _ _ Hwf). by eapply lookup_lt_Some.
  - destruct Hlegal as [He Howns].
    destruct (Model_remove_Some M m T e Hwf He Howns)
      as (a & c & c' & repE & m' & _ & _ & _ & _ & _ & _ & _ & _ & -> & _).
    by eexists.
  - destruct (Model_createSystem_Some M m hSys Us f Hwf) as (sys & -> & _).
    by eexists.
  - by eexists.
Qed.

(** A legal call keeps the model well-formed. *)
Lemma wf_run m o m' :
  wf M m → legal Nb M m o → run Nb M m o = Some m' → wf M m'.
Proof.
  intros Hwf Hlegal Hrun. destruct o as [|e|T e val|T e|hSys Us f|hSys]; simpl in *.
  - destruct (Model.createEntity Nb M m) as [[m1 e]|] eqn:Hcreate; [|done].
    injection Hrun as <-. by apply (Model_createEntity_inv Nb M m m1 e).
  - destruct (Model_removeEntity_Some Nb M m e Hwf Hlegal) as (m1 & Hrm & Hwf1 & _).
    congruence.
  - by apply (wf_insert Nb M m T e val).
  - by apply (wf_remove Nb M m T e).
  - destruct (Model_createSystem_Some M m hSys Us f Hwf) as (sys & Hcs & _).
    rewrite Hcs in Hrun. injection Hrun as <-. by apply (wf_ext M m).
  - injection Hrun as <-. by apply (wf_ext M m).
Qed.

Lemma reachable_wf m : reachable Nb M m → wf M m.
Proof.
  induction 1 as [|m o m' _ IH Hlegal Hrun].
  - apply wf_empty.
  - by apply (wf_run m o).
Qed.

Lemma run_legal_reachable m os m' :
  reachable Nb M m → run_legal Nb M m os = Some m' → reachable Nb M m'.
Proof.
  revert m. induction os as [|o os IH]; intros m Hreach Hrun; simpl in Hrun.
  - by injection Hrun as <-.
  - case_decide as Hlegal; [|done].
    destruct (run Nb M m o) as [m1|] eqn:Hstep; [|done]. simpl in Hrun.
    apply (IH m1); [|done]. by eapply reachable_step.
Qed.
End Reachable.

(** ** Further facts used below *)

Section MoreComponentFacts.
Context {T E : Type}.
Implicit Types (c : Component.t T E) (a : N).

Lemma Component_remove_Some_lt c a r :
  Component.remove c a = Some r → N.to_nat a < length (Component.owners_ c).
Proof.
  intros Hrm.
  destruct (decide (N.to_nat a < length (Component.owners_ c))) as [Hlt|Hge];
    [done|].
  unfold Component.remove, Vec.assign in Hrm.
  destruct (Vec.back (Component.owners_ c)); simpl in Hrm; [|done].
  by rewrite decide_False in Hrm.
Qed.

Lemma Vec_shrink_insert_snoc {A} (l : list A) (x : A) k :
  k = length l → Vec.shrink (<[k := x]> (l ++ [x])) = l.
Proof.
  intros ->. unfold Vec.shrink. rewrite length_insert, length_app. simpl.
  replace (length l + 1 - 1) with (length l) by lia.
  rewrite take_insert_ge by lia. by rewrite take_app_length.
Qed.

Lemma Component_remove_pushed (data : list T) (owners : list E) e val :
  length data = length owners →
  Component.remove {| Component.data_ := data ++ [val];
                      Component.owners_ := owners ++ [e] |}
                   (N.of_nat (length data))
  = Some ({| Component.data_ := data; Component.owners_ := owners |}, e).
Proof.
  intros Hlen.
  destruct (Component_remove_defined
              {| Component.data_ := data ++ [val];
                 Component.owners_ := owners ++ [e] |}
              (N.of_nat (length data)))
    as (e' & v' & He' & Hv' & Hrm).
  { simpl. rewrite Nat2N.id, length_app. simpl. lia. }
  { simpl. rewrite !length_app. simpl. lia. }
  unfold Vec.back in He', Hv'. simpl in He', Hv'.
  rewrite last_snoc in He'. rewrite last_snoc in Hv'.
  injection He' as <-. injection Hv' as <-.
  rewrite Hrm. simpl. rewrite Nat2N.id.
  by rewrite !Vec_shrink_insert_snoc.
Qed.
End MoreComponentFacts.

Section MoreMatrixFacts.
Implicit Types (am : AccessMatrix.t) (i j : AccessMatrix.Index) (p q : nat).

(** Writing a row and then writing back the row that was there restores
    the matrix. *)
Lemma store_store am i acc acc0 am1 am2 :
  AccessMatrix.deref am i = Some acc0 →
  AccessMatrix.store am i acc = Some am1 →
  AccessMatrix.store am1 i acc0 = Some am2 →
  am2 = am.
Proof.
  intros Hacc0 Hst1 Hst2. unfold AccessMatrix.store in Hst1, Hst2.
  rewrite Hacc0 in Hst1. simpl in Hst1. injection Hst1 as <-.
  destruct (AccessMatrix.deref _ i) in Hst2; simpl in Hst2; [|done].
  injection Hst2 as <-. destruct am as [data av]. simpl in *. f_equal.
  unfold AccessMatrix.deref in Hacc0. simpl in Hacc0.
  destruct (data !! i.1) as [blk|] eqn:Hblk; simpl in Hacc0; [|done].
  apply list_eq. intros b. destruct (decide (b = i.1)) as [->|Hne].
  - rewrite !list_lookup_alter_eq, Hblk. simpl. f_equal.
    rewrite list_insert_insert_eq. by apply list_insert_id.
  - by rewrite !list_lookup_alter_ne.
Qed.

(** Writing an accessor and then writing back the value that was there
    restores the matrix. *)
Lemma set_set am i p v v0 am1 am2 :
  AccessMatrix.get am i p = Some v0 →
  AccessMatrix.set am i p v = Some am1 →
  AccessMatrix.set am1 i p v0 = Some am2 →
  am2 = am.
Proof.
  intros Hget Hset1 Hset2.
  unfold AccessMatrix.get in Hget.
  destruct (AccessMatrix.deref am i) as [acc|] eqn:Hacc; simpl in Hget; [|done].
  pose proof (set_inv _ _ _ _ _ Hset1) as (acc1 & Hacc1 & Hp & _ & Hd1 & _).
  rewrite Hacc in Hacc1. injection Hacc1 as <-.
  unfold AccessMatrix.set, Vec.assign in Hset1, Hset2.
  rewrite Hacc in Hset1. rewrite Hd1 in Hset2. simpl in Hset1, Hset2.
  rewrite decide_True in Hset1 by done.
  rewrite decide_True in Hset2 by (by rewrite length_insert).
  simpl in Hset1, Hset2.
  rewrite list_insert_insert_eq in Hset2.
  rewrite (list_insert_id acc p v0 Hget) in Hset2.
  by eapply store_store.
Qed.
End MoreMatrixFacts.

Section MoreSignatureFacts.
Context (M : nat) {V F : Type}.
Implicit Types (m : Model.t V F) (e : Model.Entity) (T : nat).

(** The test [(s & sSys) == sSys] on the signature of a spawned entity:
    the entity owns every type that [sSys] requires. *)
Lemma sig_matches m e :
  wf M m → e ∈ Model.spawnedEntities_ m →
  ∃ s, Model.computeSignature_of M m e = Some s ∧
       ∀ sSys, N.land s sSys = sSys ↔
               ∀ n, N.testbit sSys n = true →
                    N.to_nat n < M ∧ owns m (N.to_nat n) e.
Proof.
  intros Hwf He.
  destruct (computeSignature_of_spawned M m e Hwf He) as (s & Hs & Hbits).
  exists s. split; [done|]. intros sSys.
  change (N.land s sSys = sSys) with (satisfies s sSys).
  rewrite satisfies_testbit. split.
  - intros Hsat n Hn. specialize (Hsat n Hn). rewrite Hbits in Hsat.
    by apply bool_decide_eq_true in Hsat.
  - intros Hreq n Hn. rewrite Hbits. apply bool_decide_eq_true. by apply Hreq.
Qed.
End MoreSignatureFacts.

Section RemoveFrame.
Context (Nb M : nat) {V F : Type}.
Implicit Types (m : Model.t V F) (e : Model.Entity) (T : nat).

(** Ownership after [remove<T>(e)]: only the [T] of [e] is gone. *)
Lemma owns_after_remove m T e m' :
  wf M m → e ∈ Model.spawnedEntities_ m → owns m T e →
  Model.remove m T e = Some m' →
  ∀ q j, owns m' q j ↔ owns m q j ∧ ¬ (j = e ∧ q = T).
Proof.
  intros Hwf He Howns Hremove.
  destruct (Model_remove_Some M m T e Hwf He Howns)
    as (a & c & c' & repE & m'' & Ha & Hamax & HT & Hc & Hown & Hrm & Hback
        & Hrep & Hremove' & _ & _ & _ & _ & _ & _ & Hget).
  rewrite Hremove in Hremove'. injection Hremove' as <-.
  pose proof (wf_stores _ _ Hwf T c Hc) as Hst.
  unfold Vec.back in Hback. rewrite last_lookup in Hback.
  destruct (store_owner _ _ _ Hst _ _ Hback) as [_ HgetR].
  assert (owns m T repE) as HownsR.
  { apply owns_get. eexists. split; [exact HgetR|].
    pose proof (store_below_sentinel _ _ _ Hst).
    pose proof (lookup_lt_Some _ _ _ Hown). lia. }
  intros q j. rewrite !owns_get, Hget.
  case_decide as Hc1.
  - split; [by intros (? & [= <-] & ?)|]. naive_solver.
  - case_decide as Hc2; [|naive_solver].
    destruct Hc2 as [-> ->]. split.
    + intros _. split; [by apply owns_get|done].
    + intros _. by exists a.
Qed.

(** Values after [remove<T>(e)]: every component still owned reads as
    before. *)
Lemma access_after_remove m T e m' :
  wf M m → e ∈ Model.spawnedEntities_ m → owns m T e →
  Model.remove m T e = Some m' →
  ∀ T' e', e' ∈ Model.spawnedEntities_ m → owns m T' e' →
           ¬ (e' = e ∧ T' = T) →
           Model.access m' T' e' = Model.access m T' e'.
Proof.
  intros Hwf He Howns Hremove T' e' He' Howns' Hne.
  destruct (Model_remove_Some M m T e Hwf He Howns)
    as (a & c & c' & repE & m'' & Ha & Hamax & HT & Hc & Hown & Hrm & Hback
        & Hrep & Hremove' & Hsp & Hcs & _ & _ & _ & _ & Hget).
  rewrite Hremove in Hremove'. injection Hremove' as <-.
  destruct (proj1 (owns_get m T' e') Howns') as (a' & Ha' & Hamax').
  unfold Model.access, Model.getComponent_. rewrite Hget, Hcs.
  rewrite decide_False by done.
  destruct (decide (T' = T)) as [->|HneT].
  - assert (e' ≠ e) as Hne' by naive_solver.
    pose proof (wf_stores _ _ Hwf T c Hc) as Hst.
    pose proof (store_accessor _ _ _ Hst e' a' He' Ha' Hamax') as Hown'.
    pose proof (lookup_lt_Some _ _ _ Hown) as Hlt.
    pose proof (lookup_lt_Some _ _ _ Hown') as Hlt'.
    destruct (Component_remove_effect c a Hlt (store_lengths _ _ _ Hst))
      as (c'' & lastE & lastV & HlastE & HlastV & Hrm' & Hld & Hlo & Hother
          & Hswap).
    rewrite Hrm in Hrm'. injection Hrm' as <- <-.
    assert (N.to_nat a' ≠ N.to_nat a) as Hneq by congruence.
    rewrite list_lookup_insert_eq by (by eapply lookup_lt_Some).
    rewrite Hc, Ha'. simpl. unfold Component.access.
    destruct (decide (e' = repE)) as [->|HneR].
    + rewrite decide_True by done. simpl.
      apply (store_owner _ _ _ Hst) in HlastE as [_ Hlast].
      rewrite Ha' in Hlast. injection Hlast as ->. rewrite Nat2N.id in *.
      destruct Hswap as [-> _]; [lia|]. congruence.
    + rewrite decide_False by naive_solver. simpl.
      destruct (Hother (N.to_nat a')) as [-> _]; [|done..].
      assert (N.to_nat a' ≠ length (Component.owners_ c) - 1) by congruence.
      lia.
  - rewrite decide_False by naive_solver.
    by rewrite list_lookup_insert_ne.
Qed.

(** What [remove<T>(e)] does to the registered systems. *)
Lemma systems_after_remove m T e m' :
  wf M m → e ∈ Model.spawnedEntities_ m → owns m T e →
  Model.remove m T e = Some m' →
  ∀ h, Model.systems_ m' !! h =
       (λ sys : Model.System_ F,
          if decide (N.land (Model.computeSignature_ [T]) (System.signature sys)
                     = System.signature sys)
          then System.remove sys e else sys) <$> Model.systems_ m !! h.
Proof.
  intros Hwf He Howns Hremove h.
  destruct (Model_remove_Some M m T e Hwf He Howns)
    as (a & c & c' & repE & m'' & _ & _ & _ & _ & _ & _ & _ & _ & Hremove'
        & _ & _ & Hsys & _).
  rewrite Hremove in Hremove'. injection Hremove' as <-.
  by rewrite Hsys, lookup_fmap.
Qed.

Lemma spawned_after_remove m T e m' :
  wf M m → e ∈ Model.spawnedEntities_ m → owns m T e →
  Model.remove m T e = Some m' →
  Model.spawnedEntities_ m' = Model.spawnedEntities_ m.
Proof.
  intros Hwf He Howns Hremove.
  destruct (Model_remove_Some M m T e Hwf He Howns)
    as (a & c & c' & repE & m'' & _ & _ & _ & _ & _ & _ & _ & _ & Hremove'
        & Hsp & _).
  rewrite Hremove in Hremove'. by injection Hremove' as <-.
Qed.

(** The test of [removeFromSystems_] for [remove<T>]: the signature of
    the system has no bit other than [T]. *)
Lemma land_single_iff T (sSys : Model.Signature_) :
  N.land (Model.computeSignature_ [T]) sSys = sSys ↔
  ∀ n, N.testbit sSys n = true → N.to_nat n = T.
Proof.
  change (N.land (Model.computeSignature_ [T]) sSys = sSys)
    with (satisfies (Model.computeSignature_ [T]) sSys).
  rewrite satisfies_testbit. split.
  - intros Hsat n Hn. specialize (Hsat n Hn).
    rewrite computeSignature_testbit in Hsat.
    apply bool_decide_eq_true in Hsat. set_solver.
  - intros Hone n Hn. rewrite computeSignature_testbit.
    apply bool_decide_eq_true. specialize (Hone n Hn). set_solver.
Qed.

Lemma single_testbit (U : nat) (n : N) :
  N.testbit (Model.computeSignature_ [U]) n = true ↔ N.to_nat n = U.
Proof.
  rewrite computeSignature_testbit, bool_decide_eq_true. set_solver.
Qed.
End RemoveFrame.

Section MembershipFacts.
Context (Nb M : nat) {V F : Type}.
Implicit Types (m : Model.t V F) (e : Model.Entity) (T : nat)
  (sys : Model.System_ F).

(** In a well-formed model the working set is exact when it holds the
    spawned entities that own every required type. *)
Lemma working_set_exact_iff m sys :
  wf M m →
  working_set_exact M m sys ↔
  ∀ j, j ∈ System.entities_ sys ↔
       j ∈ Model.spawnedEntities_ m ∧ owns_all M m j (System.signature sys).
Proof.
  intros Hwf.
  assert (∀ j, j ∈ Model.spawnedEntities_ m →
               (∃ s, Model.computeSignature_of M m j = Some s ∧
                     satisfies s (System.signature sys)) ↔
               owns_all M m j (System.signature sys)) as Hkey.
  { intros j Hj. destruct (sig_matches M m j Hwf Hj) as (s' & Hs' & Hiff).
    split.
    - intros (s & Hs & Hsat). rewrite Hs in Hs'. injection Hs' as <-.
      exact (proj1 (Hiff _) Hsat).
    - intros Hall. exists s'. split; [done|]. exact (proj2 (Hiff _) Hall). }
  unfold working_set_exact.
  split; intros Hex j; rewrite (Hex j); split; intros [Hj Hrest];
    (split; [done|]); by apply (Hkey j Hj).
Qed.

Lemma owns_all_0 m e : owns_all M m e 0%N.
Proof. intros n Hn. by rewrite N.bits_0 in Hn. Qed.

Lemma owns_all_ext m m' e e' sSys :
  (∀ q, q < M → owns m' q e' ↔ owns m q e) →
  owns_all M m' e' sSys ↔ owns_all M m e sSys.
Proof.
  intros Hext. unfold owns_all.
  split; intros Hall n Hn; destruct (Hall n Hn) as [Hlt Ho];
    (split; [done|]); by apply Hext.
Qed.

Lemma owns_all_single m e U :
  owns_all M m e (Model.computeSignature_ [U]) ↔ U < M ∧ owns m U e.
Proof.
  unfold owns_all. split.
  - intros Hall. destruct (Hall (N.of_nat U)) as [Hlt Ho].
    + apply single_testbit. lia.
    + by rewrite Nat2N.id in *.
  - intros [Hlt Ho] n ->%single_testbit. done.
Qed.

(** [createEntity()] keeps the membership invariant. *)
Lemma inv_createEntity m m' e :
  wf M m → membership_invariant M m →
  Model.createEntity Nb M m = Some (m', e) →
  membership_invariant M m'.
Proof.
  intros Hwf Hinv Hcreate.
  destruct (Model_createEntity_inv Nb M m m' e Hwf Hcreate)
    as (Hfresh & Hsp & Hcs & Hdef & Hkeep & Hsys & Hwf').
  assert (∀ q j, j ∈ Model.spawnedEntities_ m → owns m' q j ↔ owns m q j)
    as Hold.
  { intros q j Hj. unfold owns, Model.hasAccess_, AccessMatrix.has,
      AccessMatrix.get. by rewrite Hkeep. }
  assert (∀ q, ¬ owns m' q e) as Hnew.
  { intros q (a & Ha & Hmax)%owns_get.
    by apply (get_default_slot M m' q e a Hdef) in Ha. }
  intros h sys' Hsys'. rewrite Hsys, lookup_fmap in Hsys'.
  destruct (Model.systems_ m !! h) as [sys|] eqn:Hh; simpl in Hsys'; [|done].
  injection Hsys' as <-.
  pose proof (proj1 (working_set_exact_iff m sys Hwf) (Hinv h sys Hh)) as Hex.
  apply (working_set_exact_iff m' _ Hwf'). intros j. rewrite Hsp.
  destruct (decide (System.signature sys = 0%N)) as [H0|Hn0].
  - rewrite N.land_0_l, decide_True by done.
    unfold System.signature in *. simpl. rewrite H0.
    rewrite elem_of_union, elem_of_singleton, Hex, H0. split.
    + intros [->|[Hj _]]; (split; [|apply owns_all_0]).
      * apply elem_of_union. left. by apply elem_of_singleton.
      * apply elem_of_union. by right.
    + intros [[->%elem_of_singleton|Hj]%elem_of_union _]; [by left|].
      right. split; [done|apply owns_all_0].
  - rewrite N.land_0_l, decide_False by done. rewrite Hex.
    rewrite elem_of_union, elem_of_singleton. split.
    + intros [Hj Hall]. split; [by right|].
      apply (owns_all_ext m m' j j); [|done]. intros q _. by apply Hold.
    + intros [[->|Hj] Hall].
      * exfalso. destruct (Hall (N.log2 (System.signature sys))) as [_ Ho].
        { by apply N.bit_log2. }
        by apply Hnew in Ho.
      * split; [done|].
        apply (owns_all_ext m m' j j); [|done]. intros q _. by apply Hold.
Qed.

(** A legal [insert<T>(e, val)] keeps the membership invariant. *)
Lemma inv_insert m T e val m' :
  wf M m → membership_invariant M m →
  legal Nb M m (Insert T e val) →
  Model.insert M m T e val = Some m' →
  membership_invariant M m'.
Proof.
  intros Hwf Hinv Hlegal Hins.
  pose proof (wf_insert Nb M m T e val m' Hwf Hlegal Hins) as Hwf'.
  destruct Hlegal as (He & Hno & Hsize).
  destruct (Model.getComponent_ m T) as [c|] eqn:Hc; [|done].
  unfold Model.getComponent_ in Hc.
  assert (T < M) as HT.
  { rewrite <-(wf_components _ _ Hwf). by eapply lookup_lt_Some. }
  destruct (Model_insert_Some M m T e val c)
    as (m'' & s & Hins' & Hset & Hsp & _ & Hs & Hsys); [by apply Hwf|done..|].
  rewrite Hins in Hins'. injection Hins' as <-.
  pose proof (store_lengths _ _ _ (wf_stores _ _ Hwf T c Hc)) as Hlen.
  assert (∀ q j, owns m' q j ↔ (j = e ∧ q = T) ∨ owns m q j) as Howns.
  { intros q j. unfold owns, Model.hasAccess_.
    rewrite (has_set _ _ _ _ _ _ _ Hset). case_decide as Hcase.
    - split; [by left|]. intros _. f_equal.
      apply negb_true_iff, N.eqb_neq. lia.
    - naive_solver. }
  assert (e ∈ Model.spawnedEntities_ m') as He' by by rewrite Hsp.
  destruct (sig_matches M m' e Hwf' He') as (s' & Hs' & Hmatch).
  rewrite Hs in Hs'. injection Hs' as <-.
  intros h sys' Hsys'. rewrite Hsys, lookup_fmap in Hsys'.
  destruct (Model.systems_ m !! h) as [sys|] eqn:Hh; simpl in Hsys'; [|done].
  injection Hsys' as <-.
  pose proof (proj1 (working_set_exact_iff m sys Hwf) (Hinv h sys Hh)) as Hex.
  apply (working_set_exact_iff m' _ Hwf'). intros j. rewrite Hsp.
  assert (∀ j, owns_all M m j (System.signature sys) →
               owns_all M m' j (System.signature sys)) as Hmono.
  { intros j' Hall n Hn. destruct (Hall n Hn) as [Hlt Ho].
    split; [done|]. apply Howns. by right. }
  assert (∀ j, j ≠ e → owns_all M m' j (System.signature sys) →
               owns_all M m j (System.signature sys)) as Hback.
  { intros j' Hne Hall n Hn. destruct (Hall n Hn) as [Hlt Ho].
    split; [done|]. apply Howns in Ho. naive_solver. }
  case_decide as Hsat.
  - pose proof (proj1 (Hmatch _) Hsat) as Halle.
    change (System.signature (System.insert sys e)) with (System.signature sys).
    change (System.entities_ (System.insert sys e))
      with ({[e]} ∪ System.entities_ sys).
    rewrite elem_of_union, elem_of_singleton, Hex. split.
    + intros [->|[Hj Hall]]; [by split|]. split; [done|]. by apply Hmono.
    + intros [Hj Hall]. destruct (decide (j = e)) as [->|Hne]; [by left|].
      right. split; [done|]. by apply Hback.
  - rewrite Hex. split.
    + intros [Hj Hall]. split; [done|]. by apply Hmono.
    + intros [Hj Hall]. split; [done|].
      destruct (decide (j = e)) as [->|Hne]; [|by apply Hback].
      exfalso. apply Hsat. by apply (proj2 (Hmatch _)).
Qed.

(** [createSystem<Us...>(f)] keeps the membership invariant. *)
Lemma inv_createSystem m hSys Us f m' :
  wf M m → membership_invariant M m →
  Model.createSystem M m hSys Us f = Some (m', hSys) →
  membership_invariant M m'.
Proof.
  intros Hwf Hinv Hcs.
  destruct (Model_createSystem_Some M m hSys Us f Hwf)
    as (sys & Hcs' & Hsig & _ & Hmem).
  rewrite Hcs in Hcs'. injection Hcs' as ->.
  intros h sys' Hsys'. simpl in Hsys'.
  destruct (decide (h = hSys)) as [->|Hne].
  - rewrite lookup_insert_eq in Hsys'. injection Hsys' as <-.
    intros j. unfold System.signature, satisfies. rewrite Hsig. apply Hmem.
  - rewrite lookup_insert_ne in Hsys' by done. by apply (Hinv h).
Qed.

(** [removeSystem(hSys)] keeps the membership invariant. *)
Lemma inv_removeSystem m hSys :
  membership_invariant M m →
  membership_invariant M (Model.removeSystem m hSys).
Proof.
  intros Hinv h sys Hsys. simpl in Hsys.
  apply lookup_delete_Some in Hsys as [_ Hsys]. by apply (Hinv h).
Qed.
End MembershipFacts.

Section RemoveEntityFacts.
Context (Nb M : nat) {V F : Type}.
Implicit Types (m : Model.t V F) (e : Model.Entity) (T : nat)
  (sys : Model.System_ F).

(** The parts of [removeEntity(e)]: the removals, [free], and the update
    of the spawned set and of the systems. *)
Lemma removeEntity_unfold m e m' :
  Model.removeEntity M m e = Some m' →
  ∃ m1 am,
    foldM (λ m' T, Model.checkedRemove_ m' T e) m (seq 0 M) = Some m1 ∧
    AccessMatrix.free M (Model.accessMatrix_ m1) e = Some am ∧
    m' = Model.removeFromSystems_
           (Model.set_spawnedEntities (Model.set_accessMatrix m1 am)
              (Model.spawnedEntities_ m1 ∖ {[e]})) e 0%N.
Proof.
  unfold Model.removeEntity. intros Hrm.
  destruct (foldM _ m (seq 0 M)) as [m1|] eqn:Hfold; simpl in Hrm; [|done].
  destruct (AccessMatrix.free M (Model.accessMatrix_ m1) e) as [am|] eqn:Hfree;
    simpl in Hrm; [|done].
  injection Hrm as <-. by exists m1, am.
Qed.

(** A property that every [remove<T>(e)] keeps is kept by the removals of
    [removeEntity(e)]. *)
Lemma removeAll_ind (P : Model.t V F → Prop) e (len k : nat) m m' :
  (∀ m1 T m2, wf M m1 → e ∈ Model.spawnedEntities_ m1 → P m1 →
              owns m1 T e → Model.remove m1 T e = Some m2 → P m2) →
  wf M m → e ∈ Model.spawnedEntities_ m → P m →
  foldM (λ m' T, Model.checkedRemove_ m' T e) m (seq k len) = Some m' →
  P m'.
Proof.
  intros Hstep. revert m k.
  induction len as [|len IH]; intros m k Hwf He HP Hfold; simpl in Hfold.
  - by injection Hfold as <-.
  - destruct (Model.checkedRemove_ m k e) as [m1|] eqn:Hchk; simpl in Hfold;
      [|done].
    unfold Model.checkedRemove_ in Hchk.
    destruct (Model.hasAccess_ m k e) as [[|]|] eqn:Hhas; simpl in Hchk;
      [| |done].
    + apply (IH m1 (S k)); [| |by eapply Hstep|done].
      * by apply (wf_remove Nb M m k e).
      * by rewrite (spawned_after_remove M m k e m1).
    + injection Hchk as <-. by apply (IH m (S k)).
Qed.

Lemma single_typed_fmap m m' (g : Model.System_ F → Model.System_ F) :
  (∀ sys, System.signature (g sys) = System.signature sys) →
  (∀ h, Model.systems_ m' !! h = g <$> Model.systems_ m !! h) →
  single_typed M m → single_typed M m'.
Proof.
  intros Hg Hsys Hsingle h sys' Hsys'. rewrite Hsys in Hsys'.
  destruct (Model.systems_ m !! h) as [sys|] eqn:Hh; simpl in Hsys'; [|done].
  injection Hsys' as <-. rewrite Hg. by apply (Hsingle h).
Qed.

Lemma single_typed_remove m T e m' :
  wf M m → e ∈ Model.spawnedEntities_ m → owns m T e →
  Model.remove m T e = Some m' → single_typed M m → single_typed M m'.
Proof.
  intros Hwf He Howns Hremove.
  intros Hsingle.
  eapply (single_typed_fmap m m');
    [|by apply (systems_after_remove M m T e)|done].
  intros sys. simpl. by case_decide.
Qed.

(** With systems of one required type each, [remove<T>(e)] keeps the
    membership invariant. *)
Lemma inv_remove_single m T e m' :
  wf M m → membership_invariant M m → single_typed M m →
  e ∈ Model.spawnedEntities_ m → owns m T e →
  Model.remove m T e = Some m' →
  membership_invariant M m'.
Proof.
  intros Hwf Hinv Hsingle He Howns Hremove.
  assert (wf M m') as Hwf' by by apply (wf_remove Nb M m T e).
  pose proof (owns_after_remove M m T e m' Hwf He Howns Hremove) as Ho.
  pose proof (spawned_after_remove M m T e m' Hwf He Howns Hremove) as Hsp.
  intros h sys' Hsys'.
  rewrite (systems_after_remove M m T e m' Hwf He Howns Hremove) in Hsys'.
  destruct (Model.systems_ m !! h) as [sys|] eqn:Hh; simpl in Hsys'; [|done].
  injection Hsys' as <-.
  destruct (Hsingle h sys Hh) as (U & HU & Hsig).
  pose proof (proj1 (working_set_exact_iff M m sys Hwf) (Hinv h sys Hh)) as Hex.
  apply (working_set_exact_iff M m' _ Hwf'). intros j. rewrite Hsp.
  assert (System.signature
            (if decide (N.land (Model.computeSignature_ [T])
                               (System.signature sys) = System.signature sys)
             then System.remove sys e else sys) = Model.computeSignature_ [U])
    as ->.
  { by case_decide. }
  rewrite owns_all_single, Ho.
  specialize (Hex j). rewrite Hsig, owns_all_single in Hex.
  case_decide as Hcase.
  - rewrite Hsig in Hcase.
    assert (U = T) as ->.
    { rewrite land_single_iff in Hcase. rewrite <-(Hcase (N.of_nat U)); [lia|].
      apply single_testbit. lia. }
    simpl. rewrite elem_of_difference, elem_of_singleton, Hex. naive_solver.
  - rewrite Hsig in Hcase.
    assert (U ≠ T) as HneU.
    { intros ->. apply Hcase, land_single_iff.
      by intros n ->%single_testbit. }
    rewrite Hex. naive_solver.
Qed.

(** With systems of one required type each, [removeEntity(e)] keeps the
    membership invariant. *)
Lemma inv_removeEntity_single m e m' :
  wf M m → membership_invariant M m → single_typed M m →
  e ∈ Model.spawnedEntities_ m →
  Model.removeEntity M m e = Some m' →
  membership_invariant M m' ∧ single_typed M m'.
Proof.
  intros Hwf Hinv Hsingle He Hrm.
  destruct (Model_removeEntity_Some Nb M m e Hwf He) as (m'' & Hrm' & Hwf' & _).
  rewrite Hrm in Hrm'. injection Hrm' as <-.
  destruct (removeEntity_unfold m e m' Hrm) as (m1 & am & Hfold & Hfree & ->).
  destruct (removeAll_inv Nb M m e M 0) as (m1' & Hfold' & Hwf1 & Hsp1 & _ & Hno1);
    [lia | done | done | intros; lia |].
  rewrite Hfold in Hfold'. injection Hfold' as <-.
  destruct (removeAll_ind
              (λ m, membership_invariant M m ∧ single_typed M m)
              e M 0 m m1) as [Hinv1 Hsingle1]; try done.
  { intros ma T mb Hwfa Hea [Hinva Hsinglea] Hownsa Hremovea. split.
    - by apply (inv_remove_single ma T e mb).
    - by apply (single_typed_remove ma T e mb). }
  assert (e ∈ Model.spawnedEntities_ m1) as He1 by by rewrite Hsp1.
  destruct (free_Some M (Model.accessMatrix_ m1) e) as (am' & Hfree' & _ & _ & Hdj).
  { destruct (wf_spawned _ _ Hwf1 e He1) as (acc & Hacc & _). by eexists. }
  rewrite Hfree in Hfree'. injection Hfree' as <-.
  assert (single_typed M
            (Model.removeFromSystems_
               (Model.set_spawnedEntities (Model.set_accessMatrix m1 am)
                  (Model.spawnedEntities_ m1 ∖ {[e]})) e 0%N)) as Hsingle'.
  { eapply (single_typed_fmap m1);
      [|intros h; simpl; by rewrite lookup_fmap|exact Hsingle1].
    intros sys. simpl. by case_decide. }
  split; [|done].
  intros h sys' Hsys'. simpl in Hsys'. rewrite lookup_fmap in Hsys'.
  destruct (Model.systems_ m1 !! h) as [sys|] eqn:Hh; simpl in Hsys'; [|done].
  injection Hsys' as <-.
  destruct (Hsingle1 h sys Hh) as (U & HU & Hsig).
  pose proof (proj1 (working_set_exact_iff M m1 sys Hwf1) (Hinv1 h sys Hh))
    as Hex.
  apply (working_set_exact_iff M _ _ Hwf'). intros j. simpl.
  rewrite N.land_0_l.
  rewrite decide_False.
  2:{ intros H0. assert (N.testbit (System.signature sys) (N.of_nat U) = true)
        as Hbit by (rewrite Hsig; apply single_testbit; lia).
      by rewrite <-H0, N.bits_0 in Hbit. }
  rewrite (Hex j), Hsig, !owns_all_single.
  rewrite elem_of_difference, elem_of_singleton.
  destruct (decide (j = e)) as [->|Hne].
  - split; [|naive_solver]. intros (_ & _ & Ho).
    unfold owns in Ho. rewrite (Hno1 U HU) in Ho. done.
  - assert (owns (Model.set_spawnedEntities (Model.set_accessMatrix m1 am)
                    (Model.spawnedEntities_ m1 ∖ {[e]})) U j ↔ owns m1 U j)
      as Hsame.
    { unfold owns, Model.hasAccess_, AccessMatrix.has, AccessMatrix.get. simpl.
      by rewrite Hdj. }
    unfold owns in *. simpl in *. naive_solver.
Qed.
End RemoveEntityFacts.

Section RunFacts.
Context (Nb M : nat) {V F : Type}.
Implicit Types (m : Model.t V F) (e : Model.Entity) (T : nat)
  (o : @op V F).

(** The calls that remove no component keep the membership invariant. *)
Lemma inv_run_keeps m o m' :
  wf M m → membership_invariant M m → legal Nb M m o → keeps_components o →
  run Nb M m o = Some m' → membership_invariant M m'.
Proof.
  intros Hwf Hinv Hlegal Hkeeps Hrun.
  destruct o as [|e|T e val|T e|hSys Us f|hSys]; simpl in *; try done.
  - destruct (Model.createEntity Nb M m) as [[m1 e]|] eqn:Hcreate; [|done].
    injection Hrun as <-. by apply (inv_createEntity Nb M m m1 e).
  - by apply (inv_insert Nb M m T e val).
  - destruct (Model_createSystem_Some M m hSys Us f Hwf) as (sys & Hcs & _).
    rewrite Hcs in Hrun. injection Hrun as <-.
    by apply (inv_createSystem M m hSys Us f).
  - injection Hrun as <-. by apply inv_removeSystem.
Qed.

Lemma single_typed_run m o m' :
  wf M m → single_typed M m → legal Nb M m o → single_system o →
  run Nb M m o = Some m' → single_typed M m'.
Proof.
  intros Hwf Hsingle Hlegal Hone Hrun.
  destruct o as [|e|T e val|T e|hSys Us f|hSys]; simpl in *.
  - destruct (Model.createEntity Nb M m) as [[m1 e]|] eqn:Hcreate; [|done].
    injection Hrun as <-.
    destruct (Model_createEntity_inv Nb M m m1 e Hwf Hcreate)
      as (_ & _ & _ & _ & _ & Hsys & _).
    eapply (single_typed_fmap M m);
      [|intros h; by rewrite Hsys, lookup_fmap|done].
    intros sys. simpl. by case_decide.
  - destruct (removeEntity_unfold M m e m' Hrun) as (m1 & am & Hfold & _ & ->).
    assert (single_typed M m1) as Hsingle1.
    { apply (removeAll_ind Nb M (single_typed M) e M 0 m m1); try done.
      intros ma Ta mb Hwfa Hea Hsa Hownsa Hremovea.
      by apply (single_typed_remove M ma Ta e mb). }
    eapply (single_typed_fmap M m1);
      [|intros h; simpl; by rewrite lookup_fmap|exact Hsingle1].
    intros sys. simpl. by case_decide.
  - destruct Hlegal as (He & _ & Hsize).
    destruct (Model.getComponent_ m T) as [c|] eqn:Hc; [|done].
    destruct (Model_insert_Some M m T e val c)
      as (m'' & s & Hins & _ & _ & _ & _ & Hsys); [by apply Hwf| |done|].
    { rewrite <-(wf_components _ _ Hwf). by eapply lookup_lt_Some. }
    rewrite Hrun in Hins. injection Hins as <-.
    eapply (single_typed_fmap M m);
      [|intros h; by rewrite Hsys, lookup_fmap|done].
    intros sys. simpl. by case_decide.
  - destruct Hlegal as [He Howns].
    by apply (single_typed_remove M m T e m').
  - destruct (Model_createSystem_Some M m hSys Us f Hwf) as (sys & Hcs & Hsig & _).
    rewrite Hcs in Hrun. injection Hrun as <-.
    destruct Hlegal as [_ HUs].
    destruct Us as [|U [|U' Us]]; simpl in Hone; try done.
    intros h sys' Hsys'. simpl in Hsys'.
    destruct (decide (h = hSys)) as [->|Hne].
    + rewrite lookup_insert_eq in Hsys'. injection Hsys' as <-.
      exists U. split; [|done]. exact (proj1 (Forall_singleton _ _) HUs).
    + rewrite lookup_insert_ne in Hsys' by done. by apply (Hsingle h).
  - injection Hrun as <-. intros h sys Hsys. simpl in Hsys.
    apply lookup_delete_Some in Hsys as [_ Hsys]. by apply (Hsingle h).
Qed.

Lemma inv_run_single m o m' :
  wf M m → membership_invariant M m → single_typed M m →
  legal Nb M m o → single_system o →
  run Nb M m o = Some m' → membership_invariant M m'.
Proof.
  intros Hwf Hinv Hsingle Hlegal Hone Hrun.
  destruct o as [|e|T e val|T e|hSys Us f|hSys].
  - by apply (inv_run_keeps m CreateEntity m').
  - simpl in *. by apply (inv_removeEntity_single Nb M m e m').
  - by apply (inv_run_keeps m (Insert T e val) m').
  - simpl in *. destruct Hlegal as [He Howns].
    by apply (inv_remove_single Nb M m T e m').
  - by apply (inv_run_keeps m (CreateSystem hSys Us f) m').
  - by apply (inv_run_keeps m (RemoveSystem hSys) m').
Qed.

(** From a state with systems of one required type each in which the
    membership invariant holds, legal calls that create such systems only
    lead to states of the same kind. *)
Lemma inv_run_legal_single os m0 m :
  wf M m0 → membership_invariant M m0 → single_typed M m0 →
  Forall single_system os →
  run_legal Nb M m0 os = Some m →
  wf M m ∧ membership_invariant M m ∧ single_typed M m.
Proof.
  revert m0. induction os as [|o os IH]; intros m0 Hwf Hinv Hsingle Hos Hrun;
    simpl in Hrun.
  - by injection Hrun as <-.
  - apply Forall_cons in Hos as [Ho Hos].
    case_decide as Hlegal; [|done].
    destruct (run Nb M m0 o) as [m1|] eqn:Hstep; simpl in Hrun; [|done].
    apply (IH m1); try done.
    + by apply (wf_run Nb M m0 o).
    + by apply (inv_run_single m0 o).
    + by apply (single_typed_run m0 o).
Qed.

Lemma inv_empty : membership_invariant M (Model.empty M : Model.t V F).
Proof. intros h sys Hsys. simpl in Hsys. by rewrite lookup_empty in Hsys. Qed.

Lemma single_typed_empty : single_typed M (Model.empty M : Model.t V F).
Proof. intros h sys Hsys. simpl in Hsys. by rewrite lookup_empty in Hsys. Qed.

(** From a state in which the membership invariant holds, legal calls
    that remove nothing lead to states in which it holds. *)
Lemma inv_run_legal_keeps os m0 m :
  wf M m0 → membership_invariant M m0 →
  Forall keeps_components os →
  run_legal Nb M m0 os = Some m →
  membership_invariant M m.
Proof.
  revert m0. induction os as [|o os IH]; intros m0 Hwf Hinv Hos Hrun;
    simpl in Hrun.
  - by injection Hrun as <-.
  - apply Forall_cons in Hos as [Ho Hos].
    case_decide as Hlegal; [|done].
    destruct (run Nb M m0 o) as [m1|] eqn:Hstep; simpl in Hrun; [|done].
    apply (IH m1); try done.
    + by apply (wf_run Nb M m0 o).
    + by apply (inv_run_keeps m0 o).
Qed.

Lemma inv_entities_spawned m :
  membership_invariant M m →
  ∀ h sys, Model.systems_ m !! h = Some sys →
           System.entities_ sys ⊆ Model.spawnedEntities_ m.
Proof.
  intros Hinv h sys Hh j Hj. by apply (Hinv h sys Hh j) in Hj as [? _].
Qed.
End RunFacts.

Section RoundTripFacts.
Context (Nb M : nat) {V F : Type}.
Implicit Types (m : Model.t V F) (e : Model.Entity) (T : nat).

(** Writing into a slot the row it holds changes nothing. *)
Lemma store_same (am : AccessMatrix.t) (i : AccessMatrix.Index) acc :
  AccessMatrix.deref am i = Some acc → AccessMatrix.store am i acc = Some am.
Proof.
  intros Hacc. unfold AccessMatrix.store. rewrite Hacc. simpl. f_equal.
  destruct am as [data av]. simpl in *. f_equal.
  unfold AccessMatrix.deref in Hacc. simpl in Hacc.
  destruct (data !! i.1) as [blk|] eqn:Hblk; simpl in Hacc; [|done].
  apply list_eq. intros b. destruct (decide (b = i.1)) as [->|Hne].
  - rewrite list_lookup_alter_eq, Hblk. simpl. f_equal.
    by apply list_insert_id.
  - by rewrite list_lookup_alter_ne.
Qed.

(** The removals of [removeEntity(e)] do nothing for an entity without
    components. *)
Lemma removeAll_noop m e (len k : nat) :
  (∀ q, k ≤ q < k + len → Model.hasAccess_ m q e = Some false) →
  foldM (λ m' T, Model.checkedRemove_ m' T e) m (seq k len) = Some m.
Proof.
  revert k. induction len as [|len IH]; intros k Hno; [done|].
  assert (Model.checkedRemove_ m k e = Some m) as Hstep.
  { unfold Model.checkedRemove_. by rewrite (Hno k) by lia. }
  change (foldM (λ m' T, Model.checkedRemove_ m' T e) m (seq k (S len)))
    with (Model.checkedRemove_ m k e
            ≫= λ b, foldM (λ m' T, Model.checkedRemove_ m' T e) b
                       (seq (S k) len)).
  rewrite Hstep. simpl. apply IH. intros q Hq. apply Hno. lia.
Qed.
End RoundTripFacts.

(** * The properties of the specification *)

(** ** component.hpp *)

(** C5 (amended).  On a store whose two vectors have one length and for a
    valid offset [a], [remove(a)] returns the owner that was last; when [a]
    is not the last offset the last value and owner now sit at [a]; both
    vectors shrink by one and the other offsets are untouched.  When [a]
    was the last offset the returned owner is the owner of the removed
    element, and when no entity is recorded twice the returned owner is
    the owner of the removed element only in that case. *)
Theorem Component_remove_swap {T E} (c : Component.t T E) (a : N) :
  N.to_nat a < length (Component.owners_ c) →
  length (Component.data_ c) = length (Component.owners_ c) →
  let i := N.to_nat a in
  let n := length (Component.owners_ c) in
  ∃ c' lastE lastV,
    Component.owners_ c !! (n - 1) = Some lastE ∧
    Component.data_ c !! (n - 1) = Some lastV ∧
    Component.remove c a = Some (c', lastE) ∧
    length (Component.data_ c') = n - 1 ∧
    length (Component.owners_ c') = n - 1 ∧
    (∀ j, j < n - 1 → j ≠ i →
       Component.data_ c' !! j = Component.data_ c !! j ∧
       Component.owners_ c' !! j = Component.owners_ c !! j) ∧
    (i ≠ n - 1 →
       Component.data_ c' !! i = Some lastV ∧
       Component.owners_ c' !! i = Some lastE) ∧
    (i = n - 1 → Component.owners_ c !! i = Some lastE) ∧
    (NoDup (Component.owners_ c) →
       Component.owners_ c !! i = Some lastE → i = n - 1).
Proof.
  intros Ha Hlen i n.
  destruct (Component_remove_effect c a Ha Hlen)
    as (c' & lastE & lastV & HlastE & HlastV & Hrm & Hld & Hlo & Hother & Hswap).
  exists c', lastE, lastV. split_and!; try done.
  - by intros ->.
  - intros Hnd Hi. by eapply NoDup_lookup.
Qed.

(** Removing offset 0 of a store of three moves the last cell there. *)
Lemma Component_remove_swap_witness :
  let c := {| Component.data_ := [10; 20; 30];
              Component.owners_ := [1; 2; 3] |} in
  ∃ c' e, Component.remove c 0%N = Some (c', e) ∧
          Component.owners_ c' !! 0 = Some e ∧
          length (Component.data_ c') = 2.
Proof.
  intros c.
  destruct (Component_remove_swap c 0%N)
    as (c' & lastE & lastV & _ & _ & Hrm & Hld & _ & _ & Hsw & _);
    [simpl; lia | reflexivity |].
  exists c', lastE. split_and!; [exact Hrm | apply Hsw; simpl; lia | exact Hld].
Defined.

(** C5 as stated fails when an entity is recorded twice: removing offset 0
    of the owners [7; 7] returns [7], the owner of the removed element,
    although offset 0 is not the last one. *)
Lemma Component_remove_duplicate_owner :
  let c := {| Component.data_ := [10; 20]; Component.owners_ := [7; 7] |} in
  ∃ c', Component.remove c 0%N = Some (c', 7) ∧
        Component.owners_ c !! 0 = Some 7 ∧
        0 ≠ length (Component.owners_ c) - 1.
Proof. eexists. split_and!; [reflexivity | reflexivity | simpl; lia]. Qed.

(** ** system.hpp *)

Section SystemFacts.
Context {S E F : Type} `{!EqDecision E, !Countable E}.
Implicit Types (sys : System.t S E F) (e : E).

(** C9.  [insert] and [remove] are idempotent edits of the working set:
    doing either twice gives the system that doing it once gives, the
    entity is a member after [insert] and not after [remove], and the
    membership of every other entity is untouched. *)
Theorem System_insert_remove_idempotent sys e :
  System.insert (System.insert sys e) e = System.insert sys e ∧
  System.remove (System.remove sys e) e = System.remove sys e ∧
  e ∈ System.entities_ (System.insert sys e) ∧
  (e ∉ System.entities_ (System.remove sys e)) ∧
  ∀ e', e' ≠ e →
    (e' ∈ System.entities_ (System.insert sys e) ↔ e' ∈ System.entities_ sys) ∧
    (e' ∈ System.entities_ (System.remove sys e) ↔ e' ∈ System.entities_ sys).
Proof.
  split_and!.
  - unfold System.insert; simpl. f_equal. set_solver.
  - unfold System.remove; simpl. f_equal. set_solver.
  - simpl. set_solver.
  - simpl. set_solver.
  - intros e' Hne. simpl. set_solver.
Qed.
End SystemFacts.

(** ** model.hpp *)

Section ModelClaims.
Context (Nb M : nat) {V F : Type}.
Implicit Types (m : Model.t V F) (e : Model.Entity) (T : nat).

(** C3 (amended).  In a well-formed model, where every store and the
    accessors of its type agree, [remove<T>(e)] for a spawned entity that
    owns a [T] is defined, and every other spawned entity that owns a [T]
    reads through [access<T>] the value it read before. *)
Theorem Model_remove_keeps_others m T e :
  wf M m → e ∈ Model.spawnedEntities_ m → owns m T e →
  ∃ m', Model.remove m T e = Some m' ∧
        ∀ e', e' ≠ e → e' ∈ Model.spawnedEntities_ m → owns m T e' →
              ∃ v, Model.access m T e' = Some v ∧
                   Model.access m' T e' = Some v.
Proof.
  intros Hwf He Howns.
  destruct (Model_remove_Some M m T e Hwf He Howns)
    as (a & c & c' & repE & m' & Ha & Hamax & HT & Hc & Hown & Hrm & Hback
        & Hrep & Hremove & Hsp & Hcs & _ & _ & _ & _ & Hget).
  exists m'. split; [done|]. intros e' Hne He' Howns'.
  pose proof (wf_stores _ _ Hwf T c Hc) as Hst.
  destruct (proj1 (owns_get m T e') Howns') as (a' & Ha' & Hamax').
  pose proof (store_accessor _ _ _ Hst e' a' He' Ha' Hamax') as Hown'.
  pose proof (lookup_lt_Some _ _ _ Hown) as Hlt.
  pose proof (lookup_lt_Some _ _ _ Hown') as Hlt'.
  destruct (Component_remove_effect c a Hlt (store_lengths _ _ _ Hst))
    as (c'' & lastE & lastV & HlastE & HlastV & Hrm' & Hld & Hlo & Hother & Hswap).
  rewrite Hrm in Hrm'. injection Hrm' as <- <-.
  assert (is_Some (Component.data_ c !! N.to_nat a')) as [v Hv].
  { apply lookup_lt_is_Some. by rewrite (store_lengths _ _ _ Hst). }
  assert (N.to_nat a' ≠ N.to_nat a) as Hneq by congruence.
  exists v. split.
  - unfold Model.access, Model.getComponent_. rewrite Ha'. simpl. rewrite Hc. done.
  - unfold Model.access, Model.getComponent_. rewrite Hget.
    rewrite decide_False by naive_solver. rewrite Hcs.
    rewrite list_lookup_insert_eq by (by eapply lookup_lt_Some).
    unfold Component.access.
    destruct (decide (e' = repE)) as [->|HneR].
    + rewrite decide_True by done. simpl.
      apply (store_owner _ _ _ Hst) in HlastE as [_ Hlast].
      rewrite Ha' in Hlast. injection Hlast as ->. rewrite Nat2N.id in *.
      destruct Hswap as [-> _]; [lia|]. congruence.
    + rewrite decide_False by naive_solver. rewrite Ha'. simpl.
      destruct (Hother (N.to_nat a')) as [-> _]; [|done..].
      assert (N.to_nat a' ≠ length (Component.owners_ c) - 1) by congruence.
      lia.
Qed.

(** C4.  For a spawned entity [e] of a well-formed model, a declared type
    [T] and a value [val], [insert<T>(e, val)] is defined and
    [access<T>(e)] then returns [val]. *)
Theorem Model_insert_access m T e val :
  wf M m → e ∈ Model.spawnedEntities_ m → T < M →
  ∃ m', Model.insert M m T e val = Some m' ∧ Model.access m' T e = Some val.
Proof.
  intros Hwf He HT.
  assert (is_Some (Model.components_ m !! T)) as [c Hc].
  { apply lookup_lt_is_Some. by rewrite (wf_components _ _ Hwf). }
  destruct (Model_insert_Some M m T e val c) as (m' & s & Hins & Hset & _ & Hcs & _);
    [by apply Hwf | done | done |].
  exists m'. split; [done|].
  unfold Model.access, Model.getAccess_, Model.getComponent_.
  rewrite (get_set _ _ _ _ _ _ _ Hset), decide_True by done. simpl.
  rewrite Hcs, list_lookup_insert_eq by (by eapply lookup_lt_Some). simpl.
  unfold Component.access, Vec.push_back. simpl. rewrite Nat2N.id.
  by rewrite lookup_app_r, Nat.sub_diag.
Qed.

(** C6.  In a well-formed model [createSystem<Us...>(f)] is defined and
    registers under the new handle a system with the callback [f], whose
    signature has exactly the bits of the types [Us] and whose working
    set holds exactly the spawned entities that own a component of every
    type of [Us]; these are the spawned entities whose signature
    satisfies the signature of the system.  Nothing else of the model
    changes. *)
Theorem Model_createSystem_seeds m hSys Us f :
  wf M m →
  ∃ m' sys,
    Model.createSystem M m hSys Us f = Some (m', hSys) ∧
    Model.systems_ m' !! hSys = Some sys ∧
    (∀ n, N.testbit (System.signature sys) n = true ↔ N.to_nat n ∈ Us) ∧
    System.f_ sys = f ∧
    (∀ e, e ∈ System.entities_ sys ↔
          e ∈ Model.spawnedEntities_ m ∧ ∀ U, U ∈ Us → owns m U e) ∧
    working_set_exact M m' sys ∧
    Model.spawnedEntities_ m' = Model.spawnedEntities_ m ∧
    Model.accessMatrix_ m' = Model.accessMatrix_ m ∧
    Model.components_ m' = Model.components_ m ∧
    ∀ h, h ≠ hSys → Model.systems_ m' !! h = Model.systems_ m !! h.
Proof.
  intros Hwf.
  destruct (Model_createSystem_Some M m hSys Us f Hwf)
    as (sys & Hcs & Hsig & Hf & Hmem).
  eexists _, sys. split; [exact Hcs|]. simpl. split_and!; try done.
  - apply lookup_insert_eq.
  - intros n. unfold System.signature. rewrite Hsig, computeSignature_testbit.
    apply bool_decide_eq_true.
  - intros e. rewrite Hmem. split.
    + intros (He & s & Hs & Hsat). split; [done|]. intros U HU.
      destruct (sig_matches M m e Hwf He) as (s' & Hs' & Hiff).
      rewrite Hs in Hs'. injection Hs' as <-.
      destruct (proj1 (Hiff _) Hsat (N.of_nat U)) as [_ Howns].
      { rewrite computeSignature_testbit, Nat2N.id.
        by apply bool_decide_eq_true. }
      by rewrite Nat2N.id in Howns.
    + intros [He Hall]. split; [done|].
      destruct (sig_matches M m e Hwf He) as (s & Hs & Hiff).
      exists s. split; [done|]. apply Hiff. intros n Hn.
      rewrite computeSignature_testbit in Hn.
      apply bool_decide_eq_true in Hn.
      pose proof (Hall _ Hn) as Howns. split; [|done].
      destruct (proj1 (owns_get m _ e) Howns) as (a & Ha & _).
      exact (get_lt M m _ e a (wf_spawned _ _ Hwf e He) Ha).
  - intros e. unfold System.signature, satisfies. rewrite Hsig. apply Hmem.
  - intros h Hne. by apply lookup_insert_ne.
Qed.

(** C7.  For a spawned entity [e] of a well-formed model and a declared
    type [T], the signature of [e] is defined; [insert<T>(e, val)], on a
    store whose size is below the sentinel, is defined and sets bit [T];
    [remove<T>(e)], when [e] owns a [T], is defined and clears bit [T];
    in both cases every other bit of the signature of [e] is as before. *)
Theorem Model_signature_frame m T e :
  wf M m → e ∈ Model.spawnedEntities_ m → T < M →
  ∃ s,
    Model.computeSignature_of M m e = Some s ∧
    (∀ val,
       (∀ c, Model.getComponent_ m T = Some c →
             (N.of_nat (length (Component.data_ c))
                < AccessMatrix.maxAccessor_)%N) →
       ∃ m' s',
         Model.insert M m T e val = Some m' ∧
         Model.computeSignature_of M m' e = Some s' ∧
         N.testbit s' (N.of_nat T) = true ∧
         ∀ n, n ≠ N.of_nat T → N.testbit s' n = N.testbit s n) ∧
    (owns m T e →
       ∃ m' s',
         Model.remove m T e = Some m' ∧
         Model.computeSignature_of M m' e = Some s' ∧
         N.testbit s' (N.of_nat T) = false ∧
         ∀ n, n ≠ N.of_nat T → N.testbit s' n = N.testbit s n).
Proof.
  intros Hwf He HT.
  destruct (computeSignature_of_spawned M m e Hwf He) as (s & Hs & Hbits).
  exists s. split; [done|]. split.
  - intros val Hsize.
    assert (is_Some (Model.components_ m !! T)) as [c Hc].
    { apply lookup_lt_is_Some. by rewrite (wf_components _ _ Hwf). }
    specialize (Hsize c Hc).
    destruct (Model_insert_Some M m T e val c)
      as (m' & s0 & Hins & Hset & _ & _ & Hs0 & _); [by apply Hwf|done..|].
    destruct (computeSignature_of_Some M m' e) as (s' & Hs' & Hbits').
    { apply slot_ok_has. eapply slot_ok_set; [exact Hset|]. by apply Hwf. }
    assert (∀ q, Model.hasAccess_ m' q e =
                 if decide (q = T) then Some true else Model.hasAccess_ m q e)
      as Hhas.
    { intros q. unfold Model.hasAccess_. rewrite (has_set _ _ _ _ _ _ _ Hset).
      case_decide as Hq1; case_decide as Hq2; try naive_solver.
      f_equal. apply negb_true_iff, N.eqb_neq. lia. }
    exists m', s'. split_and!; try done.
    + rewrite Hbits', Nat2N.id, Hhas, decide_True by done.
      by apply bool_decide_eq_true.
    + intros n Hn. rewrite Hbits', Hbits, Hhas.
      rewrite decide_False by lia. done.
  - intros Howns.
    destruct (Model_remove_Some M m T e Hwf He Howns)
      as (a & c & c' & repE & m' & _ & _ & _ & _ & _ & _ & _ & _ & Hremove
          & _ & _ & _ & _ & Hslot & _ & Hget).
    destruct (computeSignature_of_Some M m' e) as (s' & Hs' & Hbits').
    { apply slot_ok_has, Hslot. by apply Hwf. }
    assert (∀ q, Model.hasAccess_ m' q e =
                 if decide (q = T) then Some false else Model.hasAccess_ m q e)
      as Hhas.
    { intros q. rewrite !has_of_get, Hget.
      case_decide as Hq1; case_decide as Hq2; try naive_solver.
      by rewrite decide_False by naive_solver. }
    exists m', s'. split_and!; try done.
    + rewrite Hbits', Nat2N.id, Hhas, decide_True by done.
      apply bool_decide_eq_false. by intros [_ ?].
    + intros n Hn. rewrite Hbits', Hbits, Hhas.
      rewrite decide_False by lia. done.
Qed.

End ModelClaims.

(** C10.  [removeSystem] on a handle that is no key of [systems_] leaves
    the whole model as it was. *)
Theorem Model_removeSystem_unknown {V F} (m : Model.t V F) (hSys : Model.SystemHandle) :
  Model.systems_ m !! hSys = None → Model.removeSystem m hSys = m.
Proof.
  intros Hnone. destruct m as [am sp cs ss]. unfold Model.removeSystem, Model.set_systems.
  simpl in *. f_equal. by apply delete_id.
Qed.

(** ** The properties on the concrete scenarios *)

(** The scenario is reached by legal calls, hence well-formed. *)
Lemma Scenario_two_owners_wf : wf 2 Scenario.two_owners.
Proof.
  apply (reachable_wf 2 2).
  apply (run_legal_reachable 2 2 Scenario.fresh Scenario.two_owners_ops).
  - apply reachable_empty.
  - vm_compute. reflexivity.
Qed.

Lemma Scenario_e1_spawned :
  Scenario.e1 ∈ Model.spawnedEntities_ Scenario.two_owners.
Proof. vm_compute. reflexivity. Qed.

Lemma Scenario_e2_spawned :
  Scenario.e2 ∈ Model.spawnedEntities_ Scenario.two_owners.
Proof. vm_compute. reflexivity. Qed.

(** [Tour.mixed] is reached by legal calls as well. *)
Lemma Tour_mixed_reachable : reachable 2 2 Tour.mixed.
Proof.
  apply (run_legal_reachable 2 2 Scenario.fresh Tour.mixed_ops).
  - apply reachable_empty.
  - vm_compute. reflexivity.
Qed.

Lemma Tour_mixed_wf : wf 2 Tour.mixed.
Proof. exact (reachable_wf 2 2 _ Tour_mixed_reachable). Qed.

(** Removing the component of [e1] leaves [e2] reading its 6. *)
Lemma Model_remove_keeps_others_witness :
  ∃ m', Model.remove Scenario.two_owners 0 Scenario.e1 = Some m' ∧
        Model.access Scenario.two_owners 0 Scenario.e2 = Some 6 ∧
        Model.access m' 0 Scenario.e2 = Some 6.
Proof.
  destruct (Model_remove_keeps_others 2 Scenario.two_owners 0 Scenario.e1
              Scenario_two_owners_wf Scenario_e1_spawned eq_refl)
    as (m' & Hrm & Hothers).
  destruct (Hothers Scenario.e2) as (v & Hv & Hv');
    [discriminate | exact Scenario_e2_spawned | reflexivity |].
  exists m'. vm_compute in Hv. injection Hv as <-. done.
Defined.

(** C3 as stated fails: pairwise distinct offsets of the owners do not
    suffice when a store has a cell that no accessor points to.  After
    [insert<T0>(e3, 5)], [insert<T0>(e3, 9)] and [remove<T0>(e1)] the
    entities [e3] and [e2] own a component of type 0 at the offsets 0 and
    1, the store still holds the 5 at offset 2, and [remove<T0>(e2)]
    turns what [access<T0>(e3)] reads from 9 into 5.  The state is not
    well-formed. *)
Lemma Model_remove_stale_cell :
  Stale.run_all Scenario.fresh Stale.twice_ops = Some Stale.twice ∧
  Model.spawnedEntities_ Stale.twice
    = {[Scenario.e1; Scenario.e2; Stale.e3]} ∧
  Model.hasAccess_ Stale.twice 0 Scenario.e1 = Some false ∧
  Model.getAccess_ Stale.twice 0 Scenario.e2 = Some 1%N ∧
  Model.getAccess_ Stale.twice 0 Stale.e3 = Some 0%N ∧
  (∀ e e', e ∈ Model.spawnedEntities_ Stale.twice →
           e' ∈ Model.spawnedEntities_ Stale.twice →
           owns Stale.twice 0 e → owns Stale.twice 0 e' → e ≠ e' →
           Model.getAccess_ Stale.twice 0 e
           ≠ Model.getAccess_ Stale.twice 0 e') ∧
  (¬ wf 2 Stale.twice) ∧
  ∃ m', Model.remove Stale.twice 0 Scenario.e2 = Some m' ∧
        Model.access Stale.twice 0 Stale.e3 = Some 9 ∧
        Model.access m' 0 Stale.e3 = Some 5.
Proof.
  assert (Model.spawnedEntities_ Stale.twice
          = {[Scenario.e1; Scenario.e2; Stale.e3]}) as Hsp by by vm_compute.
  split_and!; [by vm_compute | exact Hsp | reflexivity | reflexivity
              | reflexivity | | |].
  - intros e e' He He' Howns Howns' Hne. rewrite Hsp in He, He'.
    apply elem_of_union in He as [[->%elem_of_singleton| ->%elem_of_singleton]%elem_of_union
                                  | ->%elem_of_singleton];
    apply elem_of_union in He' as [[->%elem_of_singleton| ->%elem_of_singleton]%elem_of_union
                                  | ->%elem_of_singleton];
    first [ exfalso; apply Hne; reflexivity
          | vm_compute in Howns; discriminate Howns
          | vm_compute in Howns'; discriminate Howns'
          | vm_compute; intros Heq; discriminate Heq ].
  - intros Hwf.
    destruct (store_owner _ _ _ (wf_stores 2 _ Hwf 0 _ eq_refl) 2 Stale.e3 eq_refl)
      as [_ Hacc].
    vm_compute in Hacc. discriminate Hacc.
  - eexists. split_and!; vm_compute; reflexivity.
Qed.

(** Inserting 9 as the second component of [e1] and reading it back. *)
Lemma Model_insert_access_witness :
  ∃ m', Model.insert 2 Scenario.two_owners 1 Scenario.e1 9 = Some m' ∧
        Model.access m' 1 Scenario.e1 = Some 9.
Proof.
  apply (Model_insert_access 2 Scenario.two_owners 1 Scenario.e1 9
           Scenario_two_owners_wf Scenario_e1_spawned).
  lia.
Defined.

(** In [Tour.mixed] the entity [e1] owns a component of type 0 and [e2]
    does not: a system requiring type 0, created now, starts with [e1]
    alone. *)
Lemma Model_createSystem_seeds_witness :
  ∃ m' sys,
    Model.createSystem 2 Tour.mixed 7 [0] tt = Some (m', 7) ∧
    Model.systems_ m' !! 7 = Some sys ∧
    Model.spawnedEntities_ Tour.mixed = {[Scenario.e1; Scenario.e2]} ∧
    owns Tour.mixed 0 Scenario.e1 ∧
    Model.hasAccess_ Tour.mixed 0 Scenario.e2 = Some false ∧
    Scenario.e1 ∈ System.entities_ sys ∧
    Scenario.e2 ∉ System.entities_ sys.
Proof.
  destruct (Model_createSystem_seeds 2 Tour.mixed 7 [0] tt Tour_mixed_wf)
    as (m' & sys & Hcs & Hsys & _ & _ & Hset & _).
  exists m', sys. split_and!; [done | done | by vm_compute | reflexivity
                               | reflexivity | |].
  - apply Hset. split; [by vm_compute|].
    intros U ->%list_elem_of_singleton. reflexivity.
  - intros [_ Hall]%Hset. specialize (Hall 0 (proj2 (list_elem_of_singleton 0 0) eq_refl)).
    vm_compute in Hall. discriminate Hall.
Defined.

(** The signature of [e1] is [{T0}]; it becomes [{T0, T1}] by an insert of
    [T1] and empty by a remove of [T0]. *)
Lemma Model_signature_frame_witness :
  ∃ m1 m2,
    Model.computeSignature_of 2 Scenario.two_owners Scenario.e1 = Some 1%N ∧
    Model.insert 2 Scenario.two_owners 1 Scenario.e1 9 = Some m1 ∧
    Model.computeSignature_of 2 m1 Scenario.e1 = Some 3%N ∧
    Model.remove Scenario.two_owners 0 Scenario.e1 = Some m2 ∧
    Model.computeSignature_of 2 m2 Scenario.e1 = Some 0%N.
Proof.
  destruct (Model_signature_frame 2 Scenario.two_owners 0 Scenario.e1
              Scenario_two_owners_wf Scenario_e1_spawned ltac:(lia))
    as (s & Hs & _ & Hremove).
  destruct (Hremove eq_refl) as (m2 & s2 & Hrm & Hs2 & _).
  destruct (Model_signature_frame 2 Scenario.two_owners 1 Scenario.e1
              Scenario_two_owners_wf Scenario_e1_spawned ltac:(lia))
    as (s' & Hs' & Hinsert & _).
  destruct (Hinsert 9) as (m1 & s1 & Hins & Hs1 & _).
  { intros c [= <-]. vm_compute. reflexivity. }
  exists m1, m2. split_and!; try done.
  - vm_compute in Hins. injection Hins as <-. vm_compute. reflexivity.
  - vm_compute in Hrm. injection Hrm as <-. vm_compute. reflexivity.
Defined.



(** No system is registered in the scenario: removing handle 7 changes
    nothing. *)
Lemma Model_removeSystem_unknown_witness :
  Model.removeSystem Scenario.two_owners 7 = Scenario.two_owners.
Proof. apply Model_removeSystem_unknown. reflexivity. Defined.

(** C1 fails on the code.  After [createSystem<>()], [createEntity()],
    [insert<T0>(e1, 7)] and [remove<T0>(e1)], each a legal call, the system
    that requires nothing has an empty working set although [e1] is
    spawned and its (empty) signature satisfies the system's.  And after
    [createEntity()], [insert<T0>(e1, 7)], [insert<T1>(e1, 8)],
    [createSystem<T0, T1>()] and [removeEntity(e1)] the working set of the
    system still holds [e1], which is no longer spawned. *)
Theorem Model_membership_broken :
  (∃ m sys,
     run_legal 2 2 Scenario.fresh Scenario.toggle_ops = Some m ∧
     reachable 2 2 m ∧
     Model.systems_ m !! 0 = Some sys ∧
     System.signature sys = 0%N ∧
     System.entities_ sys = ∅ ∧
     Scenario.e1 ∈ Model.spawnedEntities_ m ∧
     Model.computeSignature_of 2 m Scenario.e1 = Some 0%N ∧
     ¬ membership_invariant 2 m) ∧
  (∃ m sys,
     run_legal 2 2 Scenario.fresh Scenario.destroy_ops = Some m ∧
     reachable 2 2 m ∧
     Model.systems_ m !! 0 = Some sys ∧
     Scenario.e1 ∈ System.entities_ sys ∧
     Model.spawnedEntities_ m = ∅ ∧
     ¬ membership_invariant 2 m).
Proof.
  split.
  - destruct (run_legal 2 2 Scenario.fresh Scenario.toggle_ops) as [m|] eqn:Hrun;
      [|by vm_compute in Hrun].
    pose proof (run_legal_reachable 2 2 _ _ _ (reachable_empty 2 2) Hrun) as Hreach.
    vm_compute in Hrun. injection Hrun as <-.
    eexists _, _. split; [reflexivity|]. split; [exact Hreach|].
    split; [vm_compute; reflexivity|].
    split_and!; try (vm_compute; reflexivity).
    intros Hinv. specialize (Hinv 0 _ eq_refl Scenario.e1).
    destruct Hinv as [_ Hin].
    assert (Scenario.e1 ∈ (∅ : gset Model.Entity)) as Habs; [|set_solver].
    apply Hin. split; [vm_compute; reflexivity|].
    exists 0%N. split; vm_compute; reflexivity.
  - destruct (run_legal 2 2 Scenario.fresh Scenario.destroy_ops) as [m|] eqn:Hrun;
      [|by vm_compute in Hrun].
    pose proof (run_legal_reachable 2 2 _ _ _ (reachable_empty 2 2) Hrun) as Hreach.
    vm_compute in Hrun. injection Hrun as <-.
    eexists _, _. split; [reflexivity|]. split; [exact Hreach|].
    split; [vm_compute; reflexivity|].
    split_and!; try (vm_compute; reflexivity).
    intros Hinv. specialize (Hinv 0 _ eq_refl Scenario.e1).
    destruct Hinv as [Hin _].
    assert (Scenario.e1 ∈ (∅ : gset Model.Entity)) as Habs; [|set_solver].
    apply Hin. vm_compute. reflexivity.
Qed.

(** C2 fails on the code in both of its parts about systems.  First, with
    one entity owning both types and a system that requires both,
    [remove<T0>(e1)] clears the accessor but leaves [e1] in the working
    set of that system, whose signature includes [T0].  Second, with a
    system that requires nothing, [remove<T0>(e1)] takes [e1] out of its
    working set, although its signature does not include [T0] and is still
    satisfied. *)
Theorem Model_remove_wrong_systems :
  (∃ m m' sys,
     run_legal 2 2 Scenario.fresh Scenario.both_ops = Some m ∧
     owns m 0 Scenario.e1 ∧
     Model.remove m 0 Scenario.e1 = Some m' ∧
     Model.hasAccess_ m' 0 Scenario.e1 = Some false ∧
     Model.systems_ m' !! 0 = Some sys ∧
     N.testbit (System.signature sys) 0 = true ∧
     Scenario.e1 ∈ System.entities_ sys) ∧
  (∃ m m' sys sys',
     run_legal 2 2 Scenario.fresh Scenario.lone_ops = Some m ∧
     owns m 0 Scenario.e1 ∧
     Model.systems_ m !! 0 = Some sys ∧
     Scenario.e1 ∈ System.entities_ sys ∧
     Model.remove m 0 Scenario.e1 = Some m' ∧
     Model.systems_ m' !! 0 = Some sys' ∧
     System.signature sys' = 0%N ∧
     Scenario.e1 ∈ Model.spawnedEntities_ m' ∧
     System.entities_ sys' = ∅).
Proof.
  split.
  - eexists _, _, _. split_and!; vm_compute; reflexivity.
  - eexists _, _, _, _. split_and!; vm_compute; reflexivity.
Qed.
(** * Further properties of the code *)

(** ** utils.hpp *)

Section IndexFacts.
Context {Ty : Type} `{!EqDecision Ty}.
Implicit Types (T U : Ty) (Ts : list Ty).

Lemma indexVtp_Some T Ts i :
  utils.indexVariadicTypePack T Ts = Some i ↔
  Ts !! i = Some T ∧ ∀ j, j < i → Ts !! j ≠ Some T.
Proof.
  revert i. induction Ts as [|U Ts IH]; intros i.
  - simpl. split; [done|]. by intros [? _].
  - change (utils.indexVariadicTypePack T (U :: Ts))
      with (if decide (T = U) then Some 0
            else S <$> utils.indexVariadicTypePack T Ts).
    case_decide as Heq.
    + subst U. split.
      * intros [= <-]. split; [done|]. lia.
      * intros [Hi Hfirst]. destruct i as [|i]; [done|].
        by destruct (Hfirst 0); [lia|].
    + split.
      * intros (i' & Hi' & ->)%fmap_Some. apply (proj1 (IH _)) in Hi' as [Hi' Hfirst].
        split; [done|]. intros [|j] Hj; simpl; [congruence|]. apply Hfirst. lia.
      * intros [Hi Hfirst]. destruct i as [|i]; simpl in Hi; [congruence|].
        apply fmap_Some. exists i. split; [|done]. apply IH. split; [done|].
        intros j Hj. apply (Hfirst (S j)). lia.
Qed.

Lemma indexVtp_None T Ts :
  utils.indexVariadicTypePack T Ts = None ↔ T ∉ Ts.
Proof.
  induction Ts as [|U Ts IH].
  - simpl. split; [intros _; apply not_elem_of_nil|done].
  - change (utils.indexVariadicTypePack T (U :: Ts))
      with (if decide (T = U) then Some 0
            else S <$> utils.indexVariadicTypePack T Ts).
    case_decide as Heq.
    + subst U. split; [done|]. intros Hn. destruct Hn. by left.
    + rewrite not_elem_of_cons. split.
      * intros Hnone%fmap_None. split; [done|]. by apply IH.
      * intros [_ Hn]. apply fmap_None. by apply IH.
Qed.

(** X1.  [indexVariadicTypePack<T, Ts...>] is the position of the first
    occurrence of [T] in the pack, and it is undefined exactly when [T]
    does not occur. *)
Theorem indexVariadicTypePack_first T Ts :
  (∀ i, utils.indexVariadicTypePack T Ts = Some i ↔
        Ts !! i = Some T ∧ ∀ j, j < i → Ts !! j ≠ Some T) ∧
  (utils.indexVariadicTypePack T Ts = None ↔ T ∉ Ts).
Proof. split; [intros i; apply indexVtp_Some | apply indexVtp_None]. Qed.

(** X2.  On a pack the index is below the size of the pack, and two types
    with the same index are the same type: the index is injective. *)
Theorem indexVariadicTypePack_injective T U Ts i :
  utils.indexVariadicTypePack T Ts = Some i →
  utils.indexVariadicTypePack U Ts = Some i →
  i < length Ts ∧ T = U.
Proof.
  intros [HT _]%indexVtp_Some [HU _]%indexVtp_Some.
  split; [by eapply lookup_lt_Some|congruence].
Qed.
End IndexFacts.

Lemma indexVariadicTypePack_injective_witness :
  utils.indexVariadicTypePack 7 [5; 7; 9; 7] = Some 1 ∧ 1 < 4 ∧ 7 = 7.
Proof.
  split; [reflexivity|].
  apply (indexVariadicTypePack_injective 7 7 [5; 7; 9; 7] 1); reflexivity.
Defined.

(** ** component.hpp *)

Section ComponentExtras.
Context {T E : Type}.
Implicit Types (c : Component.t T E) (a : N) (e : E) (val : T).

(** X3.  [insert(e, val)] returns the size the store had; reading that
    offset gives [val], its recorded owner is [e] when the two vectors
    had one length, and every offset that was valid reads as before. *)
Theorem Component_insert_access c e val :
  let '(c', a) := Component.insert c e val in
  a = N.of_nat (length (Component.data_ c)) ∧
  Component.access c' a = Some val ∧
  (length (Component.data_ c) = length (Component.owners_ c) →
   Component.owners_ c' !! N.to_nat a = Some e) ∧
  ∀ b, N.to_nat b < length (Component.data_ c) →
       Component.access c' b = Component.access c b.
Proof.
  unfold Component.insert, Component.access, Vec.push_back. simpl.
  rewrite Nat2N.id. split_and!.
  - done.
  - by rewrite lookup_app_r, Nat.sub_diag.
  - intros ->. by rewrite lookup_app_r, Nat.sub_diag.
  - intros b Hb. by apply lookup_app_l.
Qed.

(** X4.  On a store whose two vectors have one length, removing the offset
    that [insert(e, val)] returned gives back the store as it was and
    returns [e]. *)
Theorem Component_insert_remove c e val :
  length (Component.data_ c) = length (Component.owners_ c) →
  Component.remove (Component.insert c e val).1 (Component.insert c e val).2
  = Some (c, e).
Proof.
  intros Hlen. destruct c as [data owners]. simpl in *.
  unfold Vec.push_back. by apply Component_remove_pushed.
Qed.

(** X5.  On a store whose two vectors have one length, [remove(a)] is
    defined exactly for the offsets below the size; in particular it is
    undefined on an empty store. *)
Theorem Component_remove_defined_iff c a :
  length (Component.data_ c) = length (Component.owners_ c) →
  is_Some (Component.remove c a) ↔ N.to_nat a < length (Component.owners_ c).
Proof.
  intros Hlen. split.
  - intros [r Hrm]. by eapply Component_remove_Some_lt.
  - intros Ha.
    destruct (Component_remove_defined c a Ha Hlen) as (e & v & _ & _ & ->).
    by eexists.
Qed.
End ComponentExtras.

Lemma Component_insert_remove_witness :
  Component.remove {| Component.data_ := [10; 20; 30];
                      Component.owners_ := [1; 2; 3] |} 2%N
  = Some ({| Component.data_ := [10; 20]; Component.owners_ := [1; 2] |}, 3).
Proof.
  exact (Component_insert_remove
           {| Component.data_ := [10; 20]; Component.owners_ := [1; 2] |}
           3 30 eq_refl).
Defined.

Lemma Component_remove_defined_iff_witness :
  Component.remove (Component.empty : Component.t nat nat) 0%N = None.
Proof.
  destruct (Component.remove (Component.empty : Component.t nat nat) 0%N)
    as [r|] eqn:Hrm; [|reflexivity].
  assert (is_Some (Component.remove (Component.empty : Component.t nat nat) 0%N))
    as Hsome by (rewrite Hrm; by eexists).
  apply (proj1 (Component_remove_defined_iff
                  (Component.empty : Component.t nat nat) 0%N eq_refl))
    in Hsome.
  simpl in Hsome. lia.
Defined.

(** ** accessMatrix.hpp *)

Section AccessMatrixExtras.
Context (Nb M : nat).
Implicit Types (am : AccessMatrix.t) (i j : AccessMatrix.Index) (p q : nat).


(** X7.  A slot that is freed is the next one [make()] hands out, with
    every accessor absent; the free list is then as before the two calls
    and every other slot is untouched. *)
Theorem AccessMatrix_free_make am i :
  is_Some (AccessMatrix.deref am i) →
  ∃ am1 am2,
    AccessMatrix.free M am i = Some am1 ∧
    AccessMatrix.make Nb M am1 = Some (am2, i) ∧
    AccessMatrix.deref am2 i = Some (AccessMatrix.defaultAccessors_ M) ∧
    AccessMatrix.available_ am2 = AccessMatrix.available_ am ∧
    ∀ j, j ≠ i → AccessMatrix.deref am2 j = AccessMatrix.deref am j.
Proof.
  intros Hi.
  destruct (free_Some M am i Hi) as (am1 & Hfree & Hav & Hd & Hother).
  exists am1. eexists. split; [done|].
  split; [by apply (make_pop Nb M am1 _ i Hav)|]. done.
Qed.

(** X8.  [reset(i, p)] on an existing accessor makes [has(i, p)] false and
    changes no other accessor of any slot. *)
Theorem AccessMatrix_reset_has am i p acc :
  AccessMatrix.deref am i = Some acc → p < length acc →
  ∃ am',
    AccessMatrix.reset am i p = Some am' ∧
    AccessMatrix.has am' i p = Some false ∧
    ∀ j q, ¬ (j = i ∧ q = p) → AccessMatrix.get am' j q = AccessMatrix.get am j q.
Proof.
  intros Hacc Hp.
  destruct (set_Some am i p AccessMatrix.maxAccessor_ acc Hacc Hp)
    as (am' & Hset & _).
  exists am'. split; [done|]. split.
  - rewrite (has_set _ _ _ _ _ _ _ Hset). by rewrite decide_True.
  - intros j q Hne. rewrite (get_set _ _ _ _ _ _ _ Hset).
    by rewrite decide_False.
Qed.
End AccessMatrixExtras.


Lemma AccessMatrix_free_make_witness :
  ∃ am1 am2,
    AccessMatrix.free 2 (Model.accessMatrix_ Scenario.two_owners) Scenario.e1
      = Some am1 ∧
    AccessMatrix.make 2 2 am1 = Some (am2, Scenario.e1) ∧
    AccessMatrix.has am2 Scenario.e1 0 = Some false.
Proof.
  destruct (AccessMatrix_free_make 2 2 (Model.accessMatrix_ Scenario.two_owners)
              Scenario.e1)
    as (am1 & am2 & Hfree & Hmake & Hd & _); [by eexists|].
  exists am1, am2. split_and!; [done..|].
  unfold AccessMatrix.has, AccessMatrix.get. by rewrite Hd.
Defined.

Lemma AccessMatrix_reset_has_witness :
  ∃ am',
    AccessMatrix.reset (Model.accessMatrix_ Scenario.two_owners) Scenario.e2 0
      = Some am' ∧
    AccessMatrix.has am' Scenario.e2 0 = Some false ∧
    AccessMatrix.get am' Scenario.e1 0 = Some 0%N.
Proof.
  destruct (AccessMatrix_reset_has (Model.accessMatrix_ Scenario.two_owners)
              Scenario.e2 0 [1%N; AccessMatrix.maxAccessor_])
    as (am' & Hreset & Hhas & Hframe); [reflexivity | simpl; lia |].
  exists am'. split_and!; [done..|].
  rewrite Hframe; [reflexivity|]. intros [[=] _].
Defined.

(** ** model.hpp: what is defined, and what a call leaves alone *)

Section ModelExtras.
Context (Nb M : nat) {V F : Type}.
Implicit Types (m : Model.t V F) (e : Model.Entity) (T : nat).

(** X9.  In a well-formed model [access<T>(e)] on a spawned entity is
    defined exactly when [e] owns a [T]: the access without ownership
    reads the store at the sentinel offset, outside its bounds. *)
Theorem Model_access_defined_iff m T e :
  wf M m → e ∈ Model.spawnedEntities_ m → T < M →
  is_Some (Model.access m T e) ↔ owns m T e.
Proof.
  intros Hwf He HT.
  assert (is_Some (Model.components_ m !! T)) as [c Hc].
  { apply lookup_lt_is_Some. by rewrite (wf_components _ _ Hwf). }
  pose proof (wf_stores _ _ Hwf T c Hc) as Hst.
  destruct (get_is_Some M _ _ T (wf_spawned _ _ Hwf e He) HT) as [a Ha].
  unfold Model.access, Model.getComponent_, Model.getAccess_.
  rewrite Ha, Hc. simpl. unfold Component.access. split.
  - intros [v Hv]. apply owns_get. exists a. split; [done|].
    apply lookup_lt_Some in Hv. rewrite (store_lengths _ _ _ Hst) in Hv.
    pose proof (store_below_sentinel _ _ _ Hst). lia.
  - intros (a' & Ha' & Hmax)%owns_get. unfold Model.getAccess_ in Ha'.
    rewrite Ha in Ha'. injection Ha' as <-.
    apply lookup_lt_is_Some. rewrite (store_lengths _ _ _ Hst).
    eapply lookup_lt_Some. by eapply (store_accessor _ _ _ Hst).
Qed.

(** X10.  In a well-formed model [remove<T>(e)] on a spawned entity is
    defined exactly when [e] owns a [T]. *)
Theorem Model_remove_defined_iff m T e :
  wf M m → e ∈ Model.spawnedEntities_ m → T < M →
  is_Some (Model.remove m T e) ↔ owns m T e.
Proof.
  intros Hwf He HT. split.
  - intros [m' Hrm]. unfold Model.remove in Hrm.
    destruct (Model.getAccess_ m T e) as [a|] eqn:Ha; simpl in Hrm; [|done].
    destruct (Model.getComponent_ m T) as [c|] eqn:Hc; simpl in Hrm; [|done].
    destruct (Component.remove c a) as [[c' repE]|] eqn:Hcr; simpl in Hrm; [|done].
    apply owns_get. exists a. split; [done|].
    apply Component_remove_Some_lt in Hcr.
    pose proof (store_below_sentinel _ _ _ (wf_stores _ _ Hwf T c Hc)). lia.
  - intros Howns.
    destruct (Model_remove_Some M m T e Hwf He Howns)
      as (a & c & c' & repE & m' & _ & _ & _ & _ & _ & _ & _ & _ & -> & _).
    by eexists.
Qed.

(** X11.  Inserting a [T] for an entity that already owns one does not
    overwrite: the store grows by one cell, the old cell keeps its value
    and still records [e] as its owner, and the accessor of [e] moves to
    the new cell, so that [access<T>(e)] reads the new value. *)
Theorem Model_insert_twice m T e val a c :
  wf M m → e ∈ Model.spawnedEntities_ m →
  Model.getAccess_ m T e = Some a → a ≠ AccessMatrix.maxAccessor_ →
  Model.getComponent_ m T = Some c →
  ∃ m' c',
    Model.insert M m T e val = Some m' ∧
    Model.getComponent_ m' T = Some c' ∧
    length (Component.data_ c') = length (Component.data_ c) + 1 ∧
    Component.data_ c' !! N.to_nat a = Component.data_ c !! N.to_nat a ∧
    Component.owners_ c' !! N.to_nat a = Some e ∧
    Model.getAccess_ m' T e = Some (N.of_nat (length (Component.data_ c))) ∧
    N.to_nat a < length (Component.data_ c) ∧
    Model.access m' T e = Some val.
Proof.
  intros Hwf He Ha Hmax Hc. unfold Model.getComponent_ in Hc.
  pose proof (wf_stores _ _ Hwf T c Hc) as Hst.
  pose proof (get_lt M m T e a (wf_spawned _ _ Hwf e He) Ha) as HT.
  pose proof (store_accessor _ _ _ Hst e a He Ha Hmax) as Hown.
  pose proof (lookup_lt_Some _ _ _ Hown) as Hlt.
  destruct (Model_insert_Some M m T e val c)
    as (m' & s & Hins & Hset & _ & Hcs & _); [by apply Hwf|done..|].
  exists m', (Component.insert c e val).1.
  assert (Model.getComponent_ m' T = Some (Component.insert c e val).1) as Hc'.
  { unfold Model.getComponent_. rewrite Hcs.
    apply list_lookup_insert_eq. by eapply lookup_lt_Some. }
  assert (Model.getAccess_ m' T e
          = Some (N.of_nat (length (Component.data_ c)))) as Ha'.
  { unfold Model.getAccess_. rewrite (get_set _ _ _ _ _ _ _ Hset).
    by rewrite decide_True. }
  split_and!; try done; simpl; unfold Vec.push_back.
  - rewrite length_app. simpl. lia.
  - apply lookup_app_l. by rewrite (store_lengths _ _ _ Hst).
  - by apply lookup_app_l_Some.
  - by rewrite (store_lengths _ _ _ Hst).
  - unfold Model.access. rewrite Ha', Hc'. simpl.
    unfold Component.access, Vec.push_back. simpl. rewrite Nat2N.id.
    by rewrite lookup_app_r, Nat.sub_diag.
Qed.

(** X12.  [createEntity()] on a well-formed model returns an entity that
    was not spawned, adds exactly that entity to the spawned set, leaves
    the stores as they are, and changes neither an accessor nor a
    component value of an entity that was spawned. *)
Theorem Model_createEntity_fresh m m' e :
  wf M m → Model.createEntity Nb M m = Some (m', e) →
  (e ∉ Model.spawnedEntities_ m) ∧
  Model.spawnedEntities_ m' = {[e]} ∪ Model.spawnedEntities_ m ∧
  Model.components_ m' = Model.components_ m ∧
  ∀ j T, j ∈ Model.spawnedEntities_ m →
         Model.getAccess_ m' T j = Model.getAccess_ m T j ∧
         Model.access m' T j = Model.access m T j.
Proof.
  intros Hwf Hcreate.
  destruct (Model_createEntity_inv Nb M m m' e Hwf Hcreate)
    as (Hfresh & Hsp & Hcs & _ & Hkeep & _).
  split_and!; try done. intros j T Hj.
  assert (Model.getAccess_ m' T j = Model.getAccess_ m T j) as Hget.
  { unfold Model.getAccess_, AccessMatrix.get. by rewrite Hkeep. }
  split; [done|]. unfold Model.access, Model.getComponent_.
  by rewrite Hget, Hcs.
Qed.

(** X13.  [createEntity()] registers the new entity in exactly the systems
    whose signature is empty; the working set of every other system, and
    every signature, stays as it is. *)
Theorem Model_createEntity_systems m m' e :
  wf M m → Model.createEntity Nb M m = Some (m', e) →
  ∀ h,
    Model.systems_ m' !! h =
      (λ sys : Model.System_ F,
         if decide (System.signature sys = 0%N)
         then System.insert sys e else sys) <$> Model.systems_ m !! h.
Proof.
  intros Hwf Hcreate h.
  destruct (Model_createEntity_inv Nb M m m' e Hwf Hcreate)
    as (_ & _ & _ & _ & _ & Hsys & _).
  rewrite Hsys, lookup_fmap.
  destruct (Model.systems_ m !! h) as [sys|]; simpl; [|done]. f_equal.
  rewrite N.land_0_l.
  destruct (decide (0%N = System.signature sys)) as [Heq|Hne].
  - by rewrite decide_True.
  - by rewrite decide_False.
Qed.
End ModelExtras.

Section ModelExtras2.
Context (Nb M : nat) {V F : Type}.
Implicit Types (m : Model.t V F) (e : Model.Entity) (T : nat).

(** X14.  [insert<T>(e, val)] on a spawned entity of a well-formed model
    keeps the spawned set, and every component that some spawned entity
    owned, other than a [T] of [e] itself, is still owned and reads the
    same value. *)
Theorem Model_insert_frame m T e val :
  wf M m → e ∈ Model.spawnedEntities_ m → T < M →
  ∃ m',
    Model.insert M m T e val = Some m' ∧
    Model.spawnedEntities_ m' = Model.spawnedEntities_ m ∧
    ∀ T' e', e' ∈ Model.spawnedEntities_ m → owns m T' e' →
             ¬ (T' = T ∧ e' = e) →
             owns m' T' e' ∧ Model.access m' T' e' = Model.access m T' e'.
Proof.
  intros Hwf He HT.
  assert (is_Some (Model.components_ m !! T)) as [c Hc].
  { apply lookup_lt_is_Some. by rewrite (wf_components _ _ Hwf). }
  destruct (Model_insert_Some M m T e val c)
    as (m' & s & Hins & Hset & Hsp & Hcs & _); [by apply Hwf|done..|].
  exists m'. split_and!; try done. intros T' e' He' Howns Hne.
  assert (Model.getAccess_ m' T' e' = Model.getAccess_ m T' e') as Hget.
  { unfold Model.getAccess_. rewrite (get_set _ _ _ _ _ _ _ Hset).
    by rewrite decide_False by naive_solver. }
  split.
  - apply owns_get. rewrite Hget. by apply owns_get.
  - unfold Model.access, Model.getComponent_. rewrite Hget, Hcs.
    destruct (proj1 (owns_get m T' e') Howns) as (a' & Ha' & Hmax').
    rewrite Ha'. simpl. destruct (decide (T' = T)) as [->|HneT].
    + rewrite list_lookup_insert_eq by (by eapply lookup_lt_Some).
      rewrite Hc. simpl. unfold Component.access, Vec.push_back. simpl.
      apply lookup_app_l.
      pose proof (wf_stores _ _ Hwf T c Hc) as Hst.
      rewrite (store_lengths _ _ _ Hst).
      eapply lookup_lt_Some. by eapply (store_accessor _ _ _ Hst).
    + by rewrite list_lookup_insert_ne.
Qed.

(** X15.  The signature computed for a spawned entity of a well-formed
    model has bit [n] set exactly when [n] is a declared type and the
    entity owns a component of that type. *)
Theorem Model_signature_bits m e :
  wf M m → e ∈ Model.spawnedEntities_ m →
  ∃ s, Model.computeSignature_of M m e = Some s ∧
       ∀ n, N.testbit s n = true ↔
            N.to_nat n < M ∧ owns m (N.to_nat n) e.
Proof.
  intros Hwf He.
  destruct (computeSignature_of_spawned M m e Hwf He) as (s & Hs & Hbits).
  exists s. split; [done|]. intros n. rewrite Hbits.
  apply bool_decide_eq_true.
Qed.

(** X16.  The membership test [(s & sSys) == sSys] of [insertInSystems_]
    and [createSystem], on the signature [s] of a spawned entity, holds
    exactly when every bit of [sSys] is a declared type of which the
    entity owns a component. *)
Theorem Model_signature_test m e :
  wf M m → e ∈ Model.spawnedEntities_ m →
  ∃ s, Model.computeSignature_of M m e = Some s ∧
       ∀ sSys, satisfies s sSys ↔
               ∀ n, N.testbit sSys n = true →
                    N.to_nat n < M ∧ owns m (N.to_nat n) e.
Proof. intros Hwf He. by apply sig_matches. Qed.

(** X17.  Creating a system under a handle that is not registered and
    then removing that handle gives back the model as it was. *)
Theorem Model_createSystem_removeSystem m hSys Us f :
  wf M m → Model.systems_ m !! hSys = None →
  ∃ m', Model.createSystem M m hSys Us f = Some (m', hSys) ∧
        Model.removeSystem m' hSys = m.
Proof.
  intros Hwf Hnone.
  destruct (Model_createSystem_Some M m hSys Us f Hwf) as (sys & Hcs & _).
  eexists. split; [exact Hcs|].
  destruct m as [am sp cs ss]. unfold Model.removeSystem, Model.set_systems.
  simpl in *. f_equal. rewrite delete_insert_eq. by apply delete_id.
Qed.

(** X18.  A legal [insert<T>(e, val)] followed by [remove<T>(e)] is
    defined and gives back the access matrix, the spawned set and the
    stores as they were. *)
Theorem Model_insert_remove m T e val :
  wf M m → legal Nb M m (Insert T e val) →
  ∃ m1 m2,
    Model.insert M m T e val = Some m1 ∧
    Model.remove m1 T e = Some m2 ∧
    Model.accessMatrix_ m2 = Model.accessMatrix_ m ∧
    Model.spawnedEntities_ m2 = Model.spawnedEntities_ m ∧
    Model.components_ m2 = Model.components_ m.
Proof.
  intros Hwf (He & Hno & Hsize).
  destruct (Model.getComponent_ m T) as [c|] eqn:Hc; [|done].
  unfold Model.getComponent_ in Hc.
  assert (T < M) as HT.
  { rewrite <-(wf_components _ _ Hwf). by eapply lookup_lt_Some. }
  pose proof (wf_stores _ _ Hwf T c Hc) as Hst.
  apply not_owns_get in Hno.
  destruct (Model_insert_Some M m T e val c)
    as (m1 & s & Hins & Hset & Hsp & Hcs & _); [by apply Hwf|done..|].
  pose proof (set_inv _ _ _ _ _ Hset) as (acc & _ & Hp & _ & Hd1 & _).
  destruct (set_Some (Model.accessMatrix_ m1) e T AccessMatrix.maxAccessor_
              (<[T := N.of_nat (length (Component.data_ c))]> acc) Hd1)
    as (am2 & Hreset & _); [by rewrite length_insert|].
  assert (am2 = Model.accessMatrix_ m) as ->.
  { by eapply (set_set (Model.accessMatrix_ m) e T). }
  assert (Component.remove (Component.insert c e val).1
            (N.of_nat (length (Component.data_ c))) = Some (c, e)) as Hcr.
  { destruct c as [data owners]. simpl.
    apply Component_remove_pushed. apply (store_lengths _ _ _ Hst). }
  exists m1. eexists. split; [done|].
  unfold Model.remove, Model.getComponent_, Model.getAccess_,
    Model.resetAccess_, AccessMatrix.reset.
  rewrite (get_set _ _ _ _ _ _ _ Hset), decide_True by done. simpl.
  rewrite Hcs, list_lookup_insert_eq by (by eapply lookup_lt_Some). simpl.
  simpl in Hcr. rewrite Hcr. simpl. rewrite Hreset. simpl.
  rewrite decide_False by (by intros ?).
  split; [reflexivity|]. simpl. split_and!; [done|done|].
  rewrite list_insert_insert_eq. by apply list_insert_id.
Qed.
End ModelExtras2.

(** ** model.hpp: invariants over sequences of calls *)

Section ModelInvariants.
Context (Nb M : nat) {V F : Type}.
Implicit Types (m : Model.t V F) (e : Model.Entity) (T : nat)
  (o : @op V F).

(** X19.  Every state reached from a fresh model by legal calls is
    well-formed: accessors and stores agree, free slots are distinct,
    unspawned and all-absent; and in such a state every component that a
    spawned entity owns can be read. *)
Theorem Model_reachable_wf m :
  reachable Nb M m →
  wf M m ∧
  ∀ T e, e ∈ Model.spawnedEntities_ m → owns m T e →
         is_Some (Model.access m T e).
Proof.
  intros Hreach. pose proof (reachable_wf Nb M m Hreach) as Hwf.
  split; [done|]. intros T e He (a & Ha & Hmax)%owns_get.
  pose proof (get_lt M m T e a (wf_spawned _ _ Hwf e He) Ha) as HT.
  assert (is_Some (Model.components_ m !! T)) as [c Hc].
  { apply lookup_lt_is_Some. by rewrite (wf_components _ _ Hwf). }
  pose proof (wf_stores _ _ Hwf T c Hc) as Hst.
  unfold Model.access, Model.getComponent_. rewrite Ha, Hc. simpl.
  apply lookup_lt_is_Some. rewrite (store_lengths _ _ _ Hst).
  eapply lookup_lt_Some. by eapply (store_accessor _ _ _ Hst).
Qed.

(** X20.  On a state reached by legal calls every legal call is defined
    (it meets no undefined behaviour) and leads to such a state again. *)
Theorem Model_legal_defined m o :
  reachable Nb M m → legal Nb M m o →
  ∃ m', run Nb M m o = Some m' ∧ reachable Nb M m'.
Proof.
  intros Hreach Hlegal.
  destruct (run_is_Some Nb M m o (reachable_wf Nb M m Hreach) Hlegal)
    as [m' Hrun].
  exists m'. split; [done|]. by eapply reachable_step.
Qed.

(** X21.  As long as no component is removed and no entity destroyed,
    the working set of every system is exact: in a state reached from a
    fresh model by legal [createEntity], [insert], [createSystem] and
    [removeSystem] calls, each system holds exactly the spawned entities
    whose signature satisfies its own. *)
Theorem Model_membership_without_removal os m :
  Forall keeps_components os →
  run_legal Nb M (Model.empty M) os = Some m →
  membership_invariant M m.
Proof.
  intros Hos Hrun.
  by apply (inv_run_legal_keeps Nb M os (Model.empty M) m);
    [apply wf_empty | apply inv_empty | ..].
Qed.

(** X22.  When every system is created with one required type, the
    working set of every system is exact in every state reached from a
    fresh model by legal calls, [remove<T>] and [removeEntity] included. *)
Theorem Model_membership_single_typed os m :
  Forall single_system os →
  run_legal Nb M (Model.empty M) os = Some m →
  membership_invariant M m.
Proof.
  intros Hos Hrun.
  by destruct (inv_run_legal_single Nb M os (Model.empty M) m)
    as (_ & Hinv & _);
    [apply wf_empty | apply inv_empty | apply single_typed_empty | ..].
Qed.

(** X23.  [remove<T>(e)] registers and unregisters no system, changes no
    signature and no callback, leaves the membership of every entity
    other than [e] in every working set as it is, never adds [e] to a
    working set, and takes [e] out of the working set of every system
    that requires [T] alone. *)
Theorem Model_remove_membership_frame m T e m' :
  wf M m → e ∈ Model.spawnedEntities_ m → owns m T e →
  Model.remove m T e = Some m' →
  (∀ h, Model.systems_ m !! h = None → Model.systems_ m' !! h = None) ∧
  ∀ h sys, Model.systems_ m !! h = Some sys →
    ∃ sys', Model.systems_ m' !! h = Some sys' ∧
            System.signature sys' = System.signature sys ∧
            System.f_ sys' = System.f_ sys ∧
            (∀ j, j ≠ e →
               (j ∈ System.entities_ sys' ↔ j ∈ System.entities_ sys)) ∧
            (e ∈ System.entities_ sys' → e ∈ System.entities_ sys) ∧
            (System.signature sys = Model.computeSignature_ [T] →
             e ∉ System.entities_ sys').
Proof.
  intros Hwf He Howns Hremove.
  pose proof (systems_after_remove M m T e m' Hwf He Howns Hremove) as Hsys.
  split.
  - intros h Hnone. unfold Model.System_ in *. by rewrite Hsys, Hnone.
  - intros h sys Hh. unfold Model.System_ in *.
    eexists. split; [by rewrite Hsys, Hh|].
    case_decide as Hcase; simpl.
    + split_and!; try done; [set_solver..].
    + split_and!; try done. intros Hsig. exfalso. apply Hcase.
      rewrite Hsig. apply land_single_iff.
      by intros n ->%single_testbit.
Qed.
End ModelInvariants.

(** [removeEntity] does not depend on the block size; the facts about
    the loop over the component types are used at block size 1. *)
Section ModelRemoveEntityExtras.
Context (M : nat) {V F : Type}.
Implicit Types (m : Model.t V F) (e : Model.Entity) (T : nat).

(** X24.  [removeEntity(e)] on a spawned entity of a well-formed model is
    defined; afterwards [e] is not spawned, no store records [e] as an
    owner, and every component owned by another spawned entity is still
    owned and reads the same value. *)
Theorem Model_removeEntity_frame m e :
  wf M m → e ∈ Model.spawnedEntities_ m →
  ∃ m',
    Model.removeEntity M m e = Some m' ∧
    Model.spawnedEntities_ m' = Model.spawnedEntities_ m ∖ {[e]} ∧
    (∀ T c, Model.getComponent_ m' T = Some c → e ∉ Component.owners_ c) ∧
    ∀ T e', e' ≠ e → e' ∈ Model.spawnedEntities_ m → owns m T e' →
            owns m' T e' ∧ Model.access m' T e' = Model.access m T e'.
Proof.
  intros Hwf He.
  destruct (Model_removeEntity_Some 1 M m e Hwf He) as (m' & Hrm & Hwf' & Hsp & _).
  exists m'. split; [done|]. split; [done|]. split.
  - intros T c Hc (a & Ha)%list_elem_of_lookup.
    destruct (store_owner _ _ _ (wf_stores _ _ Hwf' T c Hc) a e Ha) as [Hin _].
    rewrite Hsp in Hin. set_solver.
  - destruct (removeEntity_unfold M m e m' Hrm) as (m1 & am & Hfold & Hfree & ->).
    destruct (removeAll_inv 1 M m e M 0)
      as (m1' & Hfold' & Hwf1 & Hsp1 & _ & _);
      [lia | done | done | intros; lia |].
    rewrite Hfold in Hfold'. injection Hfold' as <-.
    assert (∀ T e', e' ≠ e → e' ∈ Model.spawnedEntities_ m → owns m T e' →
                    owns m1 T e' ∧ Model.access m1 T e' = Model.access m T e')
      as Hloop.
    { apply (removeAll_ind 1 M
               (λ mk, Model.spawnedEntities_ mk = Model.spawnedEntities_ m ∧
                      ∀ T e', e' ≠ e → e' ∈ Model.spawnedEntities_ m →
                              owns m T e' →
                              owns mk T e' ∧
                              Model.access mk T e' = Model.access m T e')
               e M 0 m m1); try done.
      intros ma Ta mb Hwfa Hea [Hspa Hvala] Hownsa Hremovea. split.
      - by rewrite (spawned_after_remove M ma Ta e mb).
      - intros T e' Hne He' Howns'.
        destruct (Hvala T e' Hne He' Howns') as [Hoa Haa]. split.
        + apply (owns_after_remove M ma Ta e mb); [done..|]. naive_solver.
        + rewrite <-Haa.
          apply (access_after_remove M ma Ta e mb); try done.
          * by rewrite Hspa.
          * naive_solver. }
    assert (e ∈ Model.spawnedEntities_ m1) as He1 by by rewrite Hsp1.
    destruct (free_Some M (Model.accessMatrix_ m1) e)
      as (am' & Hfree' & _ & _ & Hdj).
    { destruct (wf_spawned _ _ Hwf1 e He1) as (acc & Hacc & _). by eexists. }
    rewrite Hfree in Hfree'. injection Hfree' as <-.
    intros T e' Hne He' Howns'.
    destruct (Hloop T e' Hne He' Howns') as [Ho1 Ha1].
    assert (∀ q, AccessMatrix.get am e' q
                 = AccessMatrix.get (Model.accessMatrix_ m1) e' q) as Hget.
    { intros q. unfold AccessMatrix.get. by rewrite Hdj. }
    split.
    + unfold owns, Model.hasAccess_, AccessMatrix.has in *. simpl.
      by rewrite Hget.
    + rewrite <-Ha1. unfold Model.access, Model.getAccess_. simpl.
      by rewrite Hget.
Qed.

(** X25.  [removeEntity(e)] registers and unregisters no system, changes
    no signature and no callback, leaves the membership of every other
    entity in every working set as it is, never adds [e] to a working
    set, and takes [e] out of the working set of every system that
    requires nothing. *)
Theorem Model_removeEntity_membership_frame m e m' :
  wf M m → e ∈ Model.spawnedEntities_ m →
  Model.removeEntity M m e = Some m' →
  (∀ h, Model.systems_ m !! h = None → Model.systems_ m' !! h = None) ∧
  ∀ h sys, Model.systems_ m !! h = Some sys →
    ∃ sys', Model.systems_ m' !! h = Some sys' ∧
            System.signature sys' = System.signature sys ∧
            System.f_ sys' = System.f_ sys ∧
            (∀ j, j ≠ e →
               (j ∈ System.entities_ sys' ↔ j ∈ System.entities_ sys)) ∧
            (e ∈ System.entities_ sys' → e ∈ System.entities_ sys) ∧
            (System.signature sys = 0%N → e ∉ System.entities_ sys').
Proof.
  intros Hwf He Hrm.
  destruct (removeEntity_unfold M m e m' Hrm) as (m1 & am & Hfold & Hfree & ->).
  destruct (removeAll_ind 1 M
              (λ mk,
                 (∀ h, Model.systems_ m !! h = None →
                       Model.systems_ mk !! h = None) ∧
                 ∀ h sys, Model.systems_ m !! h = Some sys →
                   ∃ sys', Model.systems_ mk !! h = Some sys' ∧
                           System.signature sys' = System.signature sys ∧
                           System.f_ sys' = System.f_ sys ∧
                           (∀ j, j ≠ e →
                              (j ∈ System.entities_ sys'
                               ↔ j ∈ System.entities_ sys)) ∧
                           (e ∈ System.entities_ sys' →
                            e ∈ System.entities_ sys))
              e M 0 m m1) as [Hnone Hsome]; try done.
  { intros ma Ta mb Hwfa Hea [Hnonea Hsomea] Hownsa Hremovea.
    pose proof (systems_after_remove M ma Ta e mb Hwfa Hea Hownsa Hremovea)
      as Hsys.
    split.
    - intros h Hh. unfold Model.System_ in *. by rewrite Hsys, (Hnonea h Hh).
    - intros h sys Hh.
      destruct (Hsomea h sys Hh) as (sysa & Hha & Hsiga & Hfa & Hotha & Hea').
      unfold Model.System_ in *.
      eexists. split; [by rewrite Hsys, Hha|].
      case_decide; simpl; split_and!; try done.
      + intros j Hne. rewrite <-(Hotha j Hne). set_solver.
      + intros Hin. apply Hea'. set_solver. }
  { split; [done|]. intros h sys Hh. exists sys. by split_and!. }
  split.
  - intros h Hh. simpl. by rewrite lookup_fmap, (Hnone h Hh).
  - intros h sys Hh.
    destruct (Hsome h sys Hh) as (sys1 & Hh1 & Hsig1 & Hf1 & Hoth1 & He1).
    unfold Model.System_ in *.
    eexists. split.
    { simpl. rewrite lookup_fmap. unfold Model.System_ in *. by rewrite Hh1. }
    simpl.
    case_decide as Hcase; simpl; split_and!; try done.
    + intros j Hne. rewrite <-(Hoth1 j Hne). set_solver.
    + intros Hin. apply He1. set_solver.
    + set_solver.
    + intros H0. exfalso. apply Hcase. by rewrite Hsig1.
Qed.
End ModelRemoveEntityExtras.

Section ModelRoundTrips.
Context (Nb M : nat) {V F : Type}.
Implicit Types (m : Model.t V F) (e : Model.Entity) (T : nat).

(** X26.  On a well-formed model that has a free slot and whose working
    sets hold spawned entities only, [createEntity()] followed by
    [removeEntity] of the new entity is defined and gives back the model
    exactly as it was. *)
Theorem Model_createEntity_removeEntity m :
  wf M m →
  (∀ h sys, Model.systems_ m !! h = Some sys →
            System.entities_ sys ⊆ Model.spawnedEntities_ m) →
  AccessMatrix.available_ (Model.accessMatrix_ m) ≠ [] →
  ∃ m1 e, Model.createEntity Nb M m = Some (m1, e) ∧
          Model.removeEntity M m1 e = Some m.
Proof.
  intros Hwf Hsub Hav.
  destruct (AccessMatrix.available_ (Model.accessMatrix_ m))
    as [|e av _] eqn:Havm using rev_ind; [done|].
  destruct (wf_available _ _ Hwf e) as [Hfresh Hdef].
  { rewrite Havm. set_solver. }
  eexists _, e. split.
  { unfold Model.createEntity. rewrite (make_pop Nb M _ av e Havm). done. }
  unfold Model.removeEntity.
  rewrite removeAll_noop.
  2:{ intros q Hq. apply not_owns_get. unfold Model.getAccess_. simpl.
      apply (get_default M); [exact Hdef|lia]. }
  simpl. unfold AccessMatrix.free. simpl.
  assert (AccessMatrix.store
            {| AccessMatrix.data_ := AccessMatrix.data_ (Model.accessMatrix_ m);
               AccessMatrix.available_ := av |} e
            (AccessMatrix.defaultAccessors_ M)
          = Some {| AccessMatrix.data_ :=
                      AccessMatrix.data_ (Model.accessMatrix_ m);
                    AccessMatrix.available_ := av |}) as ->.
  { by apply store_same. }
  simpl. f_equal.
  destruct m as [[data avm] sp cs ss]. simpl in *.
  unfold Model.removeFromSystems_, Model.set_systems. simpl. f_equal.
  - unfold Vec.push_back. by rewrite Havm.
  - set_solver.
  - apply map_eq. intros h. rewrite !lookup_fmap.
    destruct (ss !! h) as [sys|] eqn:Hh; simpl; [|done]. f_equal.
    specialize (Hsub h sys Hh).
    change (N.land 0 (System.signature sys)) with 0%N.
    destruct (decide (0%N = System.signature sys)) as [H0|Hn0].
    + change (System.signature (System.insert sys e))
        with (System.signature sys).
      rewrite decide_True by done.
      destruct sys as [sig ents f]. unfold System.remove, System.insert.
      simpl in *. f_equal. set_solver.
    + by rewrite decide_False.
Qed.
End ModelRoundTrips.

(** ** The properties of the model on concrete scenarios *)

Lemma Scenario_two_owners_reachable : reachable 2 2 Scenario.two_owners.
Proof.
  apply (run_legal_reachable 2 2 Scenario.fresh Scenario.two_owners_ops).
  - apply reachable_empty.
  - vm_compute. reflexivity.
Qed.

Lemma Tour_one_reachable : reachable 2 2 Tour.one.
Proof.
  apply (run_legal_reachable 2 2 Scenario.fresh Tour.one_ops).
  - apply reachable_empty.
  - vm_compute. reflexivity.
Qed.

Lemma Tour_one_wf : wf 2 Tour.one.
Proof. exact (reachable_wf 2 2 _ Tour_one_reachable). Qed.

Lemma Tour_mixed_e1_spawned :
  Scenario.e1 ∈ Model.spawnedEntities_ Tour.mixed.
Proof. vm_compute. reflexivity. Qed.

(** The working sets of [Tour.one] hold spawned entities only. *)
Lemma Tour_one_entities_spawned h (sys : Model.System_ unit) :
  Model.systems_ Tour.one !! h = Some sys →
  System.entities_ sys ⊆ Model.spawnedEntities_ Tour.one.
Proof.
  apply (inv_entities_spawned 2).
  apply (inv_run_legal_keeps 2 2 Tour.one_ops (Model.empty 2));
    [apply wf_empty | apply inv_empty | | vm_compute; reflexivity].
  unfold Tour.one_ops.
  repeat first [apply Forall_nil_2 | apply Forall_cons_2; [exact I|]].
Qed.

(** [e1] owns a component of type 0 and can read it. *)
Lemma Model_access_defined_iff_witness :
  is_Some (Model.access Scenario.two_owners 0 Scenario.e1).
Proof.
  apply (Model_access_defined_iff 2 Scenario.two_owners 0 Scenario.e1
           Scenario_two_owners_wf Scenario_e1_spawned);
    [lia | reflexivity].
Defined.

(** [e1] owns a component of type 0: removing it is defined. *)
Lemma Model_remove_defined_iff_witness :
  is_Some (Model.remove Scenario.two_owners 0 Scenario.e1).
Proof.
  apply (Model_remove_defined_iff 2 Scenario.two_owners 0 Scenario.e1
           Scenario_two_owners_wf Scenario_e1_spawned);
    [lia | reflexivity].
Defined.

(** [e1] already has the value 5 at offset 0 of the store of type 0;
    inserting 9 appends a third element and moves the accessor of [e1]
    to it, while offset 0 still records [e1] as the owner. *)
Lemma Model_insert_twice_witness :
  ∃ m' c',
    Model.insert 2 Scenario.two_owners 0 Scenario.e1 9 = Some m' ∧
    Model.getComponent_ m' 0 = Some c' ∧
    length (Component.data_ c') = 3 ∧
    Component.data_ c' !! 0 = Some 5 ∧
    Component.owners_ c' !! 0 = Some Scenario.e1 ∧
    Model.getAccess_ m' 0 Scenario.e1 = Some 2%N ∧
    Model.access m' 0 Scenario.e1 = Some 9.
Proof.
  destruct (Model_insert_twice 2 Scenario.two_owners 0 Scenario.e1 9 0%N
              {| Component.data_ := [5; 6];
                 Component.owners_ := [Scenario.e1; Scenario.e2] |}
              Scenario_two_owners_wf Scenario_e1_spawned eq_refl
              ltac:(by vm_compute) eq_refl)
    as (m' & c' & Hins & Hc' & Hlen & Hdata & Hown & Hacc & _ & Hval).
  exists m', c'. split_and!; done.
Defined.

(** The third entity is new, and [e2] still reads its 6. *)
Lemma Model_createEntity_fresh_witness :
  ∃ m' e,
    Model.createEntity 2 2 Scenario.two_owners = Some (m', e) ∧
    (e ∉ Model.spawnedEntities_ Scenario.two_owners) ∧
    Model.access m' 0 Scenario.e2 = Some 6.
Proof.
  destruct (Model.createEntity 2 2 Scenario.two_owners) as [[m' e]|] eqn:Hcreate;
    [|by vm_compute in Hcreate].
  destruct (Model_createEntity_fresh 2 2 Scenario.two_owners m' e
              Scenario_two_owners_wf Hcreate)
    as (Hfresh & _ & _ & Hframe).
  exists m', e. split_and!; [done..|].
  destruct (Hframe Scenario.e2 0 Scenario_e2_spawned) as [_ ->]. reflexivity.
Defined.

(** The system of [Tour.one] requires nothing: the second entity joins
    its working set on creation. *)
Lemma Model_createEntity_systems_witness :
  ∃ m' e sys,
    Model.createEntity 2 2 Tour.one = Some (m', e) ∧
    Model.systems_ m' !! 6 = Some sys ∧
    e ∈ System.entities_ sys.
Proof.
  destruct (Model.createEntity 2 2 Tour.one) as [[m' e]|] eqn:Hcreate;
    [|by vm_compute in Hcreate].
  pose proof (Model_createEntity_systems 2 2 Tour.one m' e Tour_one_wf
                Hcreate 6) as Hsys.
  vm_compute in Hcreate. injection Hcreate as <- <-.
  eexists _, _, _. split; [reflexivity|]. split; [exact Hsys|].
  vm_compute. reflexivity.
Defined.

(** Giving [e1] a component of type 1 leaves the 6 of [e2] in place. *)
Lemma Model_insert_frame_witness :
  ∃ m',
    Model.insert 2 Scenario.two_owners 1 Scenario.e1 9 = Some m' ∧
    Model.access m' 0 Scenario.e2 = Some 6.
Proof.
  destruct (Model_insert_frame 2 Scenario.two_owners 1 Scenario.e1 9
              Scenario_two_owners_wf Scenario_e1_spawned ltac:(lia))
    as (m' & Hins & _ & Hframe).
  exists m'. split; [done|].
  destruct (Hframe 0 Scenario.e2 Scenario_e2_spawned eq_refl) as [_ ->];
    [by intros [[=] _] | reflexivity].
Defined.

(** Bit 0 of the signature of [e1] is set. *)
Lemma Model_signature_bits_witness :
  ∃ s, Model.computeSignature_of 2 Scenario.two_owners Scenario.e1 = Some s ∧
       N.testbit s 0 = true.
Proof.
  destruct (Model_signature_bits 2 Scenario.two_owners Scenario.e1
              Scenario_two_owners_wf Scenario_e1_spawned)
    as (s & Hs & Hbits).
  exists s. split; [done|]. apply Hbits. split; [simpl; lia | reflexivity].
Defined.

(** The signature of [e1] satisfies the signature that requires type 0. *)
Lemma Model_signature_test_witness :
  ∃ s, Model.computeSignature_of 2 Scenario.two_owners Scenario.e1 = Some s ∧
       satisfies s 1%N.
Proof.
  destruct (Model_signature_test 2 Scenario.two_owners Scenario.e1
              Scenario_two_owners_wf Scenario_e1_spawned)
    as (s & Hs & Hsat).
  exists s. split; [done|]. apply Hsat.
  intros [|p] Hp; [split; [simpl; lia | reflexivity] | by destruct p].
Defined.

(** Registering a system at the unused handle 3 and removing it. *)
Lemma Model_createSystem_removeSystem_witness :
  ∃ m', Model.createSystem 2 Scenario.two_owners 3 [0] tt = Some (m', 3) ∧
        Model.removeSystem m' 3 = Scenario.two_owners.
Proof.
  exact (Model_createSystem_removeSystem 2 Scenario.two_owners 3 [0] tt
           Scenario_two_owners_wf eq_refl).
Defined.

(** Giving [e1] a component of type 1 and taking it away again. *)
Lemma Model_insert_remove_witness :
  ∃ m1 m2,
    Model.insert 2 Scenario.two_owners 1 Scenario.e1 9 = Some m1 ∧
    Model.remove m1 1 Scenario.e1 = Some m2 ∧
    Model.accessMatrix_ m2 = Model.accessMatrix_ Scenario.two_owners ∧
    Model.spawnedEntities_ m2 = Model.spawnedEntities_ Scenario.two_owners ∧
    Model.components_ m2 = Model.components_ Scenario.two_owners.
Proof.
  apply (Model_insert_remove 2 2 Scenario.two_owners 1 Scenario.e1 9
           Scenario_two_owners_wf).
  split_and!; [exact Scenario_e1_spawned | reflexivity | vm_compute; reflexivity].
Defined.

(** The scenario is well-formed and [e2] can read its component. *)
Lemma Model_reachable_wf_witness :
  wf 2 Scenario.two_owners ∧
  is_Some (Model.access Scenario.two_owners 0 Scenario.e2).
Proof.
  destruct (Model_reachable_wf 2 2 Scenario.two_owners
              Scenario_two_owners_reachable) as [Hwf Hread].
  split; [done|]. by apply Hread; [exact Scenario_e2_spawned|].
Defined.

(** Destroying [e1] is a legal call on the scenario. *)
Lemma Model_legal_defined_witness :
  ∃ m', run 2 2 Scenario.two_owners (RemoveEntity Scenario.e1) = Some m' ∧
        reachable 2 2 m'.
Proof.
  exact (Model_legal_defined 2 2 Scenario.two_owners
           (RemoveEntity Scenario.e1) Scenario_two_owners_reachable
           Scenario_e1_spawned).
Defined.

(** [Tour.mixed] is built without a removal. *)
Lemma Model_membership_without_removal_witness :
  membership_invariant 2 Tour.mixed.
Proof.
  apply (Model_membership_without_removal 2 2 Tour.mixed_ops);
    [|vm_compute; reflexivity].
  unfold Tour.mixed_ops.
  repeat first [apply Forall_nil_2 | apply Forall_cons_2; [exact I|]].
Defined.

(** [Tour.single] has a [remove] and a [removeEntity], and two systems of
    one required type each. *)
Lemma Model_membership_single_typed_witness :
  membership_invariant 2 Tour.single.
Proof.
  apply (Model_membership_single_typed 2 2 Tour.single_ops);
    [|vm_compute; reflexivity].
  unfold Tour.single_ops.
  repeat first [apply Forall_nil_2
               | apply Forall_cons_2; [first [exact I | reflexivity]|]].
Defined.

(** Taking the component of type 0 from [e1] takes [e1] out of the
    system that requires type 0. *)
Lemma Model_remove_membership_frame_witness :
  ∃ m' sys',
    Model.remove Tour.mixed 0 Scenario.e1 = Some m' ∧
    Model.systems_ m' !! 5 = Some sys' ∧
    System.signature sys' = 1%N ∧
    Scenario.e1 ∉ System.entities_ sys'.
Proof.
  destruct (Model.remove Tour.mixed 0 Scenario.e1) as [m'|] eqn:Hremove;
    [|by vm_compute in Hremove].
  destruct (Model_remove_membership_frame 2 Tour.mixed 0 Scenario.e1 m'
              Tour_mixed_wf Tour_mixed_e1_spawned eq_refl Hremove)
    as [_ Hsome].
  assert (∃ sys : Model.System_ unit,
            Model.systems_ Tour.mixed !! 5 = Some sys ∧
            System.signature sys = 1%N) as (sys & Hsys & Hsig)
    by (eexists; split; vm_compute; reflexivity).
  destruct (Hsome 5 sys Hsys) as (sys' & Hsys' & Hsig' & _ & _ & _ & Hout).
  exists m', sys'. split_and!; [done | done | by rewrite Hsig' | ].
  apply Hout. by rewrite Hsig.
Defined.

(** Destroying [e1] leaves [e2] with its 6. *)
Lemma Model_removeEntity_frame_witness :
  ∃ m', Model.removeEntity 2 Scenario.two_owners Scenario.e1 = Some m' ∧
        (Scenario.e1 ∉ Model.spawnedEntities_ m') ∧
        Model.access m' 0 Scenario.e2 = Some 6.
Proof.
  destruct (Model_removeEntity_frame 2 Scenario.two_owners Scenario.e1
              Scenario_two_owners_wf Scenario_e1_spawned)
    as (m' & Hrm & Hsp & _ & Hframe).
  exists m'. split_and!; [done | rewrite Hsp; set_solver |].
  destruct (Hframe 0 Scenario.e2) as [_ ->];
    [discriminate | exact Scenario_e2_spawned | reflexivity | reflexivity].
Defined.

(** Destroying [e1] takes it out of the system that requires nothing. *)
Lemma Model_removeEntity_membership_frame_witness :
  ∃ m' sys',
    Model.removeEntity 2 Tour.mixed Scenario.e1 = Some m' ∧
    Model.systems_ m' !! 6 = Some sys' ∧
    Scenario.e1 ∉ System.entities_ sys'.
Proof.
  destruct (Model.removeEntity 2 Tour.mixed Scenario.e1) as [m'|] eqn:Hrm;
    [|by vm_compute in Hrm].
  destruct (Model_removeEntity_membership_frame 2 Tour.mixed Scenario.e1 m'
              Tour_mixed_wf Tour_mixed_e1_spawned Hrm)
    as [_ Hsome].
  assert (∃ sys : Model.System_ unit,
            Model.systems_ Tour.mixed !! 6 = Some sys ∧
            System.signature sys = 0%N) as (sys & Hsys & Hsig)
    by (eexists; split; vm_compute; reflexivity).
  destruct (Hsome 6 sys Hsys) as (sys' & Hsys' & _ & _ & _ & _ & Hout).
  exists m', sys'. split_and!; [done | done |]. by apply Hout.
Defined.

(** [Tour.one] has one free slot: creating an entity and destroying it
    gives [Tour.one] back. *)
Lemma Model_createEntity_removeEntity_witness :
  ∃ m1 e, Model.createEntity 2 2 Tour.one = Some (m1, e) ∧
          Model.removeEntity 2 m1 e = Some Tour.one.
Proof.
  apply (Model_createEntity_removeEntity 2 2 Tour.one Tour_one_wf
           Tour_one_entities_spawned).
  by vm_compute.
Defined.
